(** * Font Awesome icon extractor (smth.py): model and verified properties

    The script reads a CSS bundle, finds icon selectors with two regular
    expressions, normalises the matched class names into a base, a brand and
    a non-brand list, and writes them to files.

    How the Python is modelled:
    - a [str] is a [string]; [sorted] compares strings by code point, which
      is [String.le];
    - a set of strings is a [gset string]; [for cls in raw] visits the
      elements in the order [elements] lists them, and every lemma about the
      loop holds for any order;
    - the two patterns are terms of a small regex syntax, run by a
      backtracking matcher that tries the alternatives in the order Python's
      [re] does (quantifiers are greedy); [findall] scans left to right and
      returns group 1 of each match;
    - code that can raise returns a [result]; [main] and the functions that
      touch files or print run in [io], a state-and-exception monad over the
      file system and the standard output;
    - [Path(arg)] is pathlib's, taken as the function [Path] from an
      argument to the path it stands for; which file a path leads to,
      whether it leads to a directory, and whether reading or opening it for
      writing is refused are the operating system's verdicts, a part [sys]
      of the world; the file system maps a file to the text [read_text]
      returns for it (decoded, undecodable bytes dropped); a write that
      fails after its file was opened is not modelled;
    - [json.dumps] and the row format of [csv.writer] belong to Python's
      standard library; the model takes them as the functions [json_dumps]
      and [csv_row]. *)

From Stdlib Require Import Ascii String DecimalString.
From stdpp Require Import gmap strings list sorting.

(** ** String primitives used by the script *)

Module Str.

(** [s.startswith(p)] *)
Fixpoint startswith (p s : string) : bool :=
  match p, s with
  | "", _ => true
  | String a p', String b s' => Ascii.eqb a b && startswith p' s'
  | String _ _, "" => false
  end.

(** [s.startswith((p1, p2, ...))] *)
Definition startswith_any (ps : list string) (s : string) : bool :=
  existsb (fun p => startswith p s) ps.

(** [s[n:]] *)
Fixpoint drop (n : nat) (s : string) : string :=
  match n, s with
  | S k, String _ t => drop k t
  | _, _ => s
  end.

(** [s[:n]] *)
Fixpoint take (n : nat) (s : string) : string :=
  match n, s with
  | S k, String c t => String c (take k t)
  | _, _ => ""
  end.

(** [s.replace(old, new)] for a non-empty [old]: every non-overlapping
    occurrence of [old], scanning left to right, is replaced by [new].
    [skip] counts the characters of an occurrence still to be passed. *)
Fixpoint replace_from (old new : string) (skip : nat) (s : string) : string :=
  match s with
  | "" => ""
  | String c t =>
      match skip with
      | S k => replace_from old new k t
      | O =>
          if startswith old s
          then new +:+ replace_from old new (String.length old - 1) t
          else String c (replace_from old new 0 t)
      end
  end.

Definition replace (old new s : string) : string := replace_from old new 0 s.

(** The first occurrence of a non-empty [sep] in [s]: the text before it
    and the text after it. *)
Fixpoint cut (sep s : string) : option (string * string) :=
  if startswith sep s then Some ("", drop (String.length sep) s)
  else match s with
       | "" => None
       | String c t =>
           match cut sep t with
           | Some (l, r) => Some (String c l, r)
           | None => None
           end
       end.

(** [s.split(sep, 1)]: at most one split, at the first [sep]. *)
Definition split1 (sep s : string) : list string :=
  match cut sep s with
  | Some (l, r) => [l; r]
  | None => [s]
  end.

(** ["sep".join(items)] *)
Fixpoint join (sep : string) (items : list string) : string :=
  match items with
  | [] => ""
  | [x] => x
  | x :: rest => x +:+ sep +:+ join sep rest
  end.

(** [sub in s] *)
Fixpoint contains (sub s : string) : bool :=
  startswith sub s
  || match s with
     | "" => false
     | String _ t => contains sub t
     end.

(** [all(f(c) for c in s)] *)
Fixpoint all (f : ascii → bool) (s : string) : bool :=
  match s with
  | "" => true
  | String c t => f c && all f t
  end.

(** [str(n)] for a non-negative integer. *)
Definition of_nat (n : nat) : string :=
  NilEmpty.string_of_uint (Nat.to_uint n).

(** A one-character string holding the double quote. *)
Definition dquote : string := String "034" "".

End Str.

(** ** Regular expressions

    The fragment of Python's [re] syntax that the two patterns use, with the
    backtracking matcher's order of preference: a quantifier is greedy, so
    the longer alternative is tried first. *)

Module Re.

(** One item of a bracketed character set. *)
Inductive item :=
| One (c : ascii)            (* a single character *)
| Range (lo hi : ascii).     (* lo-hi *)

Definition item_mem (c : ascii) (i : item) : bool :=
  match i with
  | One d => Ascii.eqb c d
  | Range lo hi => (N_of_ascii lo <=? N_of_ascii c)%N && (N_of_ascii c <=? N_of_ascii hi)%N
  end.

Definition set_mem (items : list item) (c : ascii) : bool :=
  existsb (item_mem c) items.

Inductive regex :=
| Lit (c : ascii)                 (* a literal character; also an escaped one *)
| Set_ (items : list item)        (* [...] *)
| Cat (r1 r2 : regex)             (* r1 r2 *)
| Opt (r : regex)                 (* r?  *)
| PlusSet (items : list item).    (* [...]+ *)

(** The literal text [s] as a regex. *)
Fixpoint lit (s : string) : regex :=
  match s with
  | "" => Opt (Set_ [])           (* the empty word only *)
  | String c "" => Lit c
  | String c t => Cat (Lit c) (lit t)
  end.

(** The ways one or more characters of the set can be read off the front
    of [s], longest first: the text read and the remainder. *)
Fixpoint plus_set (items : list item) (s : string) : list (string * string) :=
  match s with
  | "" => []
  | String c t =>
      if set_mem items c
      then map (fun '(m, rest) => (String c m, rest)) (plus_set items t) ++ [(String c "", t)]
      else []
  end.

(** [exec r s]: each way [r] can match a prefix of [s], as the text matched
    and the remainder, in the order in which backtracking tries them. *)
Fixpoint exec (r : regex) (s : string) : list (string * string) :=
  match r with
  | Lit c =>
      match s with
      | String d t => if Ascii.eqb c d then [(String d "", t)] else []
      | "" => []
      end
  | Set_ items =>
      match s with
      | String d t => if set_mem items d then [(String d "", t)] else []
      | "" => []
      end
  | Cat r1 r2 =>
      mr1 ← exec r1 s;
      mr2 ← exec r2 mr1.2;
      [(mr1.1 +:+ mr2.1, mr2.2)]
  | Opt r1 => exec r1 s ++ [("", s)]
  | PlusSet items => plus_set items s
  end.

(** A compiled pattern with one capturing group: [pre (group) post]. *)
Record pattern := Pattern { pre : regex; group : regex; post : regex }.

(** A successful match: the text of group 1 and the whole text matched. *)
Record found := Found { group1 : string; group0 : string }.

(** Try the pattern at the start of [s]; the first successful path wins. *)
Definition match_at (p : pattern) (s : string) : option found :=
  head (m1 ← exec (pre p) s;
        m2 ← exec (group p) m1.2;
        m3 ← exec (post p) m2.2;
        [Found m2.1 (m1.1 +:+ m2.1 +:+ m3.1)]).

(** [p.findall(s)] for a pattern with one group: scan left to right, the
    matches do not overlap.  [skip] counts the characters of the last
    match still to be passed. *)
Fixpoint findall_from (p : pattern) (skip : nat) (s : string) : list string :=
  match skip with
  | S k =>
      match s with
      | "" => []
      | String _ t => findall_from p k t
      end
  | O =>
      match match_at p s with
      | Some m =>
          group1 m :: match s with
                      | "" => []
                      | String _ t => findall_from p (String.length (group0 m) - 1) t
                      end
      | None =>
          match s with
          | "" => []
          | String _ t => findall_from p 0 t
          end
      end
  end.

Definition findall (p : pattern) (s : string) : list string := findall_from p 0 s.

End Re.

(** ** The extractor *)

Definition lower : Re.item := Re.Range "a" "z".
Definition digit : Re.item := Re.Range "0" "9".
Definition slug_set : list Re.item := [lower; digit; Re.One "-"].

(** [::?before] *)
Definition before_marker : Re.regex :=
  Re.Cat (Re.Lit ":") (Re.Cat (Re.Opt (Re.Lit ":")) (Re.lit "before")).

(** [\.(fa-[a-z0-9-]+)::?before] *)
Definition ICON_SELECTOR_RE : Re.pattern :=
  Re.Pattern (Re.Lit ".")
             (Re.Cat (Re.lit "fa-") (Re.PlusSet slug_set))
             before_marker.

(** [\.(fa[brsl]?[a-z]?-[a-z0-9-]+)::?before] *)
Definition STYLE_SELECTOR_RE : Re.pattern :=
  Re.Pattern (Re.Lit ".")
             (Re.Cat (Re.lit "fa")
                (Re.Cat (Re.Opt (Re.Set_ [Re.One "b"; Re.One "r"; Re.One "s"; Re.One "l"]))
                   (Re.Cat (Re.Opt (Re.Set_ [lower]))
                      (Re.Cat (Re.Lit "-") (Re.PlusSet slug_set)))))
             before_marker.

Definition extract_icon_classes (css_text : string) : gset string :=
  let matches_primary := Re.findall ICON_SELECTOR_RE css_text in
  let matches_style := Re.findall STYLE_SELECTOR_RE css_text in
  list_to_set matches_primary ∪ list_to_set matches_style.

(** ** Exceptions and the two monads of the script

    Pure code that can raise lives in [result]; code that also reads or
    writes files or prints lives in [io]. *)

Inductive exn :=
| FileNotFoundError (msg : string)
| IsADirectoryError (msg : string)
| PermissionError (msg : string)
| IndexError.

Definition result (A : Type) : Type := exn + A.

Abbreviation Ok a := (inr a) (only parsing).
Abbreviation Raise e := (inl e) (only parsing).

Definition rbind {A B} (m : result A) (k : A → result B) : result B :=
  match m with
  | inl e => inl e
  | inr a => k a
  end.

Notation "'let!' x := m 'in' k" := (rbind m (fun x => k))
  (at level 10, x pattern, m at level 100, k at level 200,
   format "'[v' 'let!'  x  :=  m  'in' '/' k ']'").

(** [l[i]] *)
Definition index {A} (l : list A) (i : nat) : result A :=
  match l !! i with
  | Some a => Ok a
  | None => Raise IndexError
  end.

(** The operating system's verdicts on a path: the file it leads to (two
    paths can lead to one file), whether it leads to a directory, and the
    exception raised, if any, when it refuses to say whether the path
    exists, to open it for reading or to open it for writing (a missing
    parent directory, no permission). *)
Record os := OS {
  file_of : string → string;
  is_dir : string → bool;
  stat_error : string → option exn;
  read_denied : string → option exn;
  write_denied : string → option exn }.

(** The exception of opening a path for reading or for writing, if any:
    the operating system's, and a directory cannot be opened as a file. *)
Definition read_error (sy : os) (path : string) : option exn :=
  match read_denied sy path with
  | Some e => Some e
  | None => if is_dir sy path then Some (IsADirectoryError path) else None
  end.

Definition write_error (sy : os) (path : string) : option exn :=
  match write_denied sy path with
  | Some e => Some e
  | None => if is_dir sy path then Some (IsADirectoryError path) else None
  end.

(** The file system maps a file to its text; the standard output is the
    list of lines printed so far. *)
Record world := World { files : gmap string string; stdout : list string; sys : os }.

Definition io (A : Type) : Type := world → result A * world.

Definition ret {A} (a : A) : io A := fun w => (Ok a, w).
Definition throw {A} (e : exn) : io A := fun w => (Raise e, w).
Definition lift {A} (m : result A) : io A := fun w => (m, w).

Definition bind {A B} (m : io A) (k : A → io B) : io B :=
  fun w =>
    match m w with
    | (inl e, w') => (inl e, w')
    | (inr a, w') => k a w'
    end.

Notation "'let*' x := m 'in' k" := (bind m (fun x => k))
  (at level 10, x pattern, m at level 100, k at level 200,
   format "'[v' 'let*'  x  :=  m  'in' '/' k ']'").
Notation "m ;; k" := (bind m (fun _ => k))
  (at level 100, k at level 200, right associativity).

(** [path.exists()]: the path leads to a directory or to a file; the
    operating system can refuse the question. *)
Definition exists_ (path : string) : io bool :=
  fun w =>
    match stat_error (sys w) path with
    | Some e => (Raise e, w)
    | None =>
        (Ok (is_dir (sys w) path
             || bool_decide (is_Some (files w !! file_of (sys w) path))), w)
    end.

(** [path.read_text(encoding="utf-8", errors="ignore")]: raises when the
    path cannot be opened for reading, and [FileNotFoundError] when there is
    no file; the text of a file is what decoding its bytes gives, the
    undecodable ones dropped. *)
Definition read_text (path : string) : io string :=
  fun w =>
    match read_error (sys w) path with
    | Some e => (Raise e, w)
    | None =>
        match files w !! file_of (sys w) path with
        | Some text => (Ok text, w)
        | None => (Raise (FileNotFoundError path), w)
        end
    end.

(** [path.write_text(text)]: opens the file for writing, which raises when
    the path cannot be opened and then changes nothing, and otherwise
    creates or replaces the file. *)
Definition write_text (path text : string) : io unit :=
  fun w =>
    match write_error (sys w) path with
    | Some e => (Raise e, w)
    | None =>
        (Ok (), World (<[file_of (sys w) path := text]> (files w)) (stdout w) (sys w))
    end.

(** [print(line)] *)
Definition print (line : string) : io unit :=
  fun w => (Ok (), World (files w) (stdout w ++ [line]) (sys w)).

(** [if c: body] for a statement *)
Definition when (c : bool) (body : io unit) : io unit :=
  if c then body else ret ().

(** Truth value of a string: non-empty. *)
Definition truthy (s : string) : bool :=
  match s with
  | "" => false
  | _ => true
  end.

(** ** The loader *)

Definition load_css (css_path : string) : io string :=
  let* found := exists_ css_path in
  if negb found
  then throw (FileNotFoundError ("CSS file not found: " +:+ css_path))
  else read_text css_path.

(** ** The normalizer *)

(** [sorted(X)] for a set of strings. *)
Definition sorted (X : gset string) : list string :=
  merge_sort String.le (elements X).

(** The two sets the loop builds. *)
Record acc := Acc { base_icons : gset string; brand_icons : gset string }.

(** The body of [for cls in raw]. *)
Definition normalize_step (cls : string) (a : acc) : result acc :=
  if Str.startswith "fa-" cls then
    Ok (Acc ({[cls]} ∪ base_icons a) (brand_icons a))
  else if Str.startswith "fab-" cls then
    let brand_name := Str.replace "fab-" "fa-" cls in
    Ok (Acc (base_icons a) ({[brand_name]} ∪ brand_icons a))
  else if Str.startswith_any ["fas-"; "far-"; "fal-"] cls then
    let! solid_name := index (Str.split1 "-" cls) 1 in
    let solid_full := "fa-" +:+ solid_name in
    Ok (Acc ({[solid_full]} ∪ base_icons a) (brand_icons a))
  else Ok a.

(** The loop over the tokens in the order the set hands them out. *)
Fixpoint normalize_loop (tokens : list string) (a : acc) : result acc :=
  match tokens with
  | [] => Ok a
  | cls :: rest =>
      let! a' := normalize_step cls a in
      normalize_loop rest a'
  end.

Definition normalize_icons (raw : gset string)
  : result (list string * list string * list string) :=
  let! a := normalize_loop (elements raw) (Acc ∅ ∅) in
  let full_base := base_icons a ∪ brand_icons a in
  Ok (sorted full_base, sorted (brand_icons a), sorted (full_base ∖ brand_icons a)).

(** ** The writers *)

(** The values [json.dumps] is given here. *)
#[local] Unset Elimination Schemes.
Inductive jvalue :=
| JInt (n : nat)
| JStr (s : string)
| JList (items : list jvalue)
| JDict (fields : list (string * jvalue)).
#[local] Set Elimination Schemes.

(** [d[key]] for a dict literal: the last binding of the key wins. *)
Fixpoint json_get (key : string) (fields : list (string * jvalue)) : option jvalue :=
  match fields with
  | [] => None
  | (k, v) :: rest =>
      match json_get key rest with
      | Some v' => Some v'
      | None => if String.eqb k key then Some v else None
      end
  end.

Definition write_list (path : string) (items : list string) : io unit :=
  write_text path (Str.join (String "010" "") items +:+ String "010" "").

Definition markdown_row (icon : string) : string :=
  "| `" +:+ icon +:+ "` | `<span class=" +:+ Str.dquote +:+ "icon " +:+ icon
    +:+ Str.dquote +:+ "></span>` |".

Definition write_markdown_table (path : string) (all_icons : list string) : io unit :=
  let lines := ["| Icon Class | Preview |"; "|-----------|---------|"]
                 ++ map markdown_row all_icons in
  write_text path (Str.join (String "010" "") lines +:+ String "010" "").

(** The dict that [write_json] serialises. *)
Definition json_data (all_icons brands solids : list string) : jvalue :=
  JDict [ ("count_total", JInt (length all_icons));
          ("count_brands", JInt (length brands));
          ("count_non_brands", JInt (length solids));
          ("icons", JList (map JStr all_icons));
          ("brands", JList (map JStr brands));
          ("non_brands", JList (map JStr solids)) ].

(** The parsed command line. *)
Record args := Args {
  css : string; out : string; brands_out : string; solids_out : string;
  markdown : string; json : string; csv : string }.

Section Main.

(** The two serialisers of Python's standard library: [json.dumps(v,
    indent=2)] and the text [csv.writer] produces for one row, line
    terminator included. *)
Variable json_dumps : jvalue → string.
Variable csv_row : list string → string.

(** [Path(arg)] of pathlib, as the path's own text ([str(Path(arg))]). *)
Variable Path : string → string.

Definition write_json (path : string) (all_icons brands solids : list string) : io unit :=
  let data := json_data all_icons brands solids in
  write_text path (json_dumps data).

Definition write_csv (path : string) (all_icons brands : list string) : io unit :=
  let brand_set : gset string := list_to_set brands in
  let rows :=
    ["icon_class"; "is_brand"]
      :: map (fun icon => [icon; if bool_decide (icon ∈ brand_set) then "yes" else "no"])
           all_icons in
  write_text path (String.concat "" (map csv_row rows)).

Definition main (a : args) : io unit :=
  let css_path := Path (css a) in
  let* css_text := load_css css_path in
  let raw_classes := extract_icon_classes css_text in
  let* normalized := lift (normalize_icons raw_classes) in
  let '(all_icons, brand_icons, non_brand_icons) := normalized in
  write_list (Path (out a)) all_icons ;;
  write_list (Path (brands_out a)) brand_icons ;;
  write_list (Path (solids_out a)) non_brand_icons ;;
  when (truthy (markdown a)) (write_markdown_table (Path (markdown a)) all_icons) ;;
  when (truthy (json a))
    (write_json (Path (json a)) all_icons brand_icons non_brand_icons) ;;
  when (truthy (csv a)) (write_csv (Path (csv a)) all_icons brand_icons) ;;
  print ("Total icons: " +:+ Str.of_nat (length all_icons)) ;;
  print ("Brands: " +:+ Str.of_nat (length brand_icons) +:+ " | Non-brands: "
           +:+ Str.of_nat (length non_brand_icons)) ;;
  print ("Wrote: " +:+ out a +:+ ", " +:+ brands_out a +:+ ", " +:+ solids_out a) ;;
  when (truthy (markdown a)) (print ("Wrote markdown table: " +:+ markdown a)) ;;
  when (truthy (json a)) (print ("Wrote JSON: " +:+ json a)) ;;
  when (truthy (csv a)) (print ("Wrote CSV: " +:+ csv a)).

End Main.

(** * Vocabulary of the properties *)

(** [str_lt] is the strict lexicographic order of [sorted]. *)
Definition str_lt (s t : string) : Prop := String.ltb s t = true.

Definition solid_prefixes : list string := ["fas-"; "far-"; "fal-"].

(** What one token adds to the two sets. *)
Definition token_base (cls : string) : gset string :=
  match normalize_step cls (Acc ∅ ∅) with
  | inr a => base_icons a
  | inl _ => ∅
  end.

Definition token_brand (cls : string) : gset string :=
  match normalize_step cls (Acc ∅ ∅) with
  | inr a => brand_icons a
  | inl _ => ∅
  end.

(** The two sets after the loop, as functions of the raw set. *)
Definition base_of (raw : gset string) : gset string :=
  ⋃ (token_base <$> elements raw).
Definition brands_of (raw : gset string) : gset string :=
  ⋃ (token_brand <$> elements raw).

(** The words a regex denotes. *)
Fixpoint lang (r : Re.regex) (w : string) : Prop :=
  match r with
  | Re.Lit c => w = String c ""
  | Re.Set_ items => ∃ c, w = String c "" ∧ Re.set_mem items c = true
  | Re.Cat r1 r2 => ∃ u v, w = u +:+ v ∧ lang r1 u ∧ lang r2 v
  | Re.Opt r1 => w = "" ∨ lang r1 w
  | Re.PlusSet items => w ≠ "" ∧ Str.all (Re.set_mem items) w = true
  end.

Definition not_dot (c : ascii) : bool := negb (Ascii.eqb c ".").

Definition is_lower (c : ascii) : bool := Re.set_mem [lower] c.
Definition is_style_letter (c : ascii) : bool :=
  Re.set_mem [Re.One "b"; Re.One "r"; Re.One "s"; Re.One "l"] c.

(** No letter or one lowercase letter. *)
Definition one_letter_infix (i : string) : bool :=
  match i with
  | "" => true
  | String c "" => is_lower c
  | _ => false
  end.

(** No letter, one lowercase letter, or one of b, r, s, l and then a
    lowercase letter. *)
Definition style_infix (i : string) : bool :=
  match i with
  | "" => true
  | String c "" => is_lower c
  | String c (String d "") => is_style_letter c && is_lower d
  | _ => false
  end.

(** [fa], an infix, a hyphen, a non-empty slug. *)
Definition token_shape (infix_ok : string → bool) (tok : string) : Prop :=
  ∃ infix slug,
    tok = "fa" +:+ infix +:+ "-" +:+ slug ∧ infix_ok infix = true ∧
    slug ≠ "" ∧ Str.all (Re.set_mem slug_set) slug = true.

(** In [css] the token stands right after a dot and right before
    [:before] or [::before]. *)
Definition selector_in (css tok : string) : Prop :=
  ∃ s1 marker s2,
    css = s1 +:+ "." +:+ tok +:+ marker +:+ s2 ∧ marker ∈ [":before"; "::before"].

(** The text [write_list] puts in the file: a lone newline for no names,
    otherwise every name followed by a newline. *)
Definition list_text (items : list string) : string :=
  match items with
  | [] => String "010" ""
  | _ => String.concat "" (map (fun name => name +:+ String "010" "") items)
  end.

(** Looking a field up in the dict, and the length of a list field. *)
Definition field (key : string) (v : jvalue) : option jvalue :=
  match v with
  | JDict fields => json_get key fields
  | _ => None
  end.

Definition int_field (key : string) (v : jvalue) : option nat :=
  match field key v with
  | Some (JInt n) => Some n
  | _ => None
  end.

Definition list_field_len (key : string) (v : jvalue) : option nat :=
  match field key v with
  | Some (JList items) => Some (length items)
  | _ => None
  end.

(** The paths a run is asked to write, in the order it writes them. *)
Definition requested_outputs (Path : string → string) (a : args) : list string :=
  [Path (out a); Path (brands_out a); Path (solids_out a)]
    ++ (if truthy (markdown a) then [Path (markdown a)] else [])
    ++ (if truthy (json a) then [Path (json a)] else [])
    ++ (if truthy (csv a) then [Path (csv a)] else []).

Definition not_colon (c : ascii) : bool := negb (Ascii.eqb c ":").

(** No letter between [fa] and the hyphen. *)
Definition no_infix (i : string) : bool :=
  match i with
  | "" => true
  | _ => false
  end.

(** The text [write_markdown_table] puts in the file. *)
Definition markdown_text (all_icons : list string) : string :=
  Str.join (String "010" "")
    (["| Icon Class | Preview |"; "|-----------|---------|"] ++ map markdown_row all_icons)
  +:+ String "010" "".

(** The rows [write_csv] hands to the CSV writer. *)
Definition csv_rows (all_icons brands : list string) : list (list string) :=
  ["icon_class"; "is_brand"]
    :: map (fun icon => [icon; if bool_decide (icon ∈ brands) then "yes" else "no"])
         all_icons.

(** The writes a run sets out to do once the lists are there, as path and
    text, in order. *)
Definition writes (json_dumps : jvalue → string) (csv_row : list string → string)
    (Path : string → string) (a : args) (base brand non_brand : list string)
  : list (string * string) :=
  [(Path (out a), list_text base); (Path (brands_out a), list_text brand);
   (Path (solids_out a), list_text non_brand)]
    ++ (if truthy (markdown a) then [(Path (markdown a), markdown_text base)] else [])
    ++ (if truthy (json a)
        then [(Path (json a), json_dumps (json_data base brand non_brand))] else [])
    ++ (if truthy (csv a)
        then [(Path (csv a), String.concat "" (map csv_row (csv_rows base brand)))]
        else []).

(** The file system after a list of writes, one after the other, each to
    the file its path leads to. *)
Definition write_all (sy : os) (ws : list (string * string)) (fs : gmap string string)
  : gmap string string :=
  foldl (fun fs pt => <[file_of sy pt.1 := pt.2]> fs) fs ws.

(** The writes done before the first one that cannot be opened, and the
    exception of that one, if there is one. *)
Fixpoint attempt (sy : os) (ws : list (string * string))
  : list (string * string) * option exn :=
  match ws with
  | [] => ([], None)
  | (path, text) :: rest =>
      match write_error sy path with
      | Some e => ([], Some e)
      | None => let '(done, failure) := attempt sy rest in ((path, text) :: done, failure)
      end
  end.




(** ** Sample instances for the runs below

    [posix_path] is pathlib's [str(Path(arg))] on a POSIX system: the root
    is kept (two leading slashes stay two, three or more become one), empty
    and [.] components are dropped, and the empty path is [.]. *)
Fixpoint split_on (sep : ascii) (s : string) : list string :=
  match s with
  | "" => [""]
  | String c rest =>
      if Ascii.eqb c sep then "" :: split_on sep rest
      else match split_on sep rest with
           | [] => [String c ""]
           | part :: parts => String c part :: parts
           end
  end.

Definition splitroot (p : string) : string * string :=
  if negb (Str.startswith "/" p) then ("", p)
  else if negb (Str.startswith "//" p) || Str.startswith "///" p then ("/", Str.drop 1 p)
  else ("//", Str.drop 2 p).

Definition posix_path (arg : string) : string :=
  let '(root, rel) := splitroot arg in
  let parts :=
    List.filter (fun part => negb (String.eqb part "") && negb (String.eqb part "."))
      (split_on "/" rel) in
  match root +:+ Str.join "/" parts with
  | "" => "."
  | path => path
  end.

(** An operating system where, among normalised relative paths without
    links, every path is its own file, the paths of [dirs] are directories,
    and the paths of [no_parent] lie in a directory that does not exist. *)
Definition sample_os (dirs no_parent : list string) : os :=
  {| file_of := fun path => path;
     is_dir := fun path => bool_decide (path ∈ dirs);
     stat_error := fun _ => None;
     read_denied := fun path =>
       if bool_decide (path ∈ no_parent) then Some (FileNotFoundError path) else None;
     write_denied := fun path =>
       if bool_decide (path ∈ no_parent) then Some (FileNotFoundError path) else None |}.

(** The lines a successful run prints. *)
Definition summary (a : args) (base brand non_brand : list string) : list string :=
  ["Total icons: " +:+ Str.of_nat (length base);
   "Brands: " +:+ Str.of_nat (length brand) +:+ " | Non-brands: "
     +:+ Str.of_nat (length non_brand);
   "Wrote: " +:+ out a +:+ ", " +:+ brands_out a +:+ ", " +:+ solids_out a]
    ++ (if truthy (markdown a) then ["Wrote markdown table: " +:+ markdown a] else [])
    ++ (if truthy (json a) then ["Wrote JSON: " +:+ json a] else [])
    ++ (if truthy (csv a) then ["Wrote CSV: " +:+ csv a] else []).

(** * Properties *)

(** ** Sample runs *)

Example ex_findall_a :
  Re.findall ICON_SELECTOR_RE ".fa-yin-yang::before{x}.fab-github:before{y}" = ["fa-yin-yang"].
Proof. vm_compute. reflexivity. Qed.

Example ex_findall_b :
  Re.findall STYLE_SELECTOR_RE ".fa-yin-yang::before{x}.fab-github:before{y},.fabx-q:before.fad-z:before.faxb-z:before"
  = ["fa-yin-yang"; "fab-github"; "fabx-q"; "fad-z"].
Proof. vm_compute. reflexivity. Qed.

Example ex_replace : Str.replace "fab-" "fa-" "fab-prefab-x" = "fa-prefa-x".
Proof. reflexivity. Qed.

Example ex_split : Str.split1 "-" "fas-user-plus" = ["fas"; "user-plus"].
Proof. reflexivity. Qed.

Example ex_normalize :
  normalize_icons {["fab-github"; "fabx-y"; "fas-user"; "fal-"; "fa-code"; "fas"]}
  = Ok (["fa-"; "fa-code"; "fa-github"; "fa-user"], ["fa-github"],
        ["fa-"; "fa-code"; "fa-user"]).
Proof. by vm_compute. Qed.

Example ex_path :
  map posix_path [""; "./x.txt"; "x.txt"; "a//b/./c/"; "/etc/../x"; "//srv/x"; "///srv"]
  = ["."; "x.txt"; "x.txt"; "a/b/c"; "/etc/../x"; "//srv/x"; "/srv"].
Proof. by vm_compute. Qed.

Example ex_main :
  main (fun _ => "") (fun _ => "") posix_path
    (Args "./a.css" "all.txt" "brands.txt" "solids.txt" "" "" "")
    (World {["a.css" := ".fa-code:before{}.fab-github:before{}"]} [] (sample_os ["."] []))
  = (Ok (),
     World (<["solids.txt" := "fa-code" +:+ String "010" ""]>
              (<["brands.txt" := "fa-github" +:+ String "010" ""]>
                 (<["all.txt" := "fa-code" +:+ String "010" "fa-github" +:+ String "010" ""]>
                    {["a.css" := ".fa-code:before{}.fab-github:before{}"]})))
           ["Total icons: 2"; "Brands: 1 | Non-brands: 1";
            "Wrote: all.txt, brands.txt, solids.txt"]
           (sample_os ["."] [])).
Proof. by vm_compute. Qed.

(** A run stopped by its second write: the first list is on disk, the
    other two are not, and nothing is printed. *)
Example ex_main_stopped :
  main (fun _ => "") (fun _ => "") posix_path
    (Args "a.css" "all.txt" "nodir/brands.txt" "solids.txt" "" "" "")
    (World {["a.css" := ".fa-code:before{}"]} [] (sample_os ["."] ["nodir/brands.txt"]))
  = (Raise (FileNotFoundError "nodir/brands.txt"),
     World (<["all.txt" := "fa-code" +:+ String "010" ""]>
              {["a.css" := ".fa-code:before{}"]})
           [] (sample_os ["."] ["nodir/brands.txt"])).
Proof. by vm_compute. Qed.

(** A directory passes [exists()] and then cannot be read. *)
Example ex_main_css_dir :
  main (fun _ => "") (fun _ => "") posix_path
    (Args "" "all.txt" "brands.txt" "solids.txt" "" "" "")
    (World ∅ [] (sample_os ["."] []))
  = (Raise (IsADirectoryError "."), World ∅ [] (sample_os ["."] [])).
Proof. by vm_compute. Qed.

(** The empty [--out] is the current directory, which cannot be opened for
    writing. *)
Example ex_main_out_empty :
  main (fun _ => "") (fun _ => "") posix_path
    (Args "a.css" "" "brands.txt" "solids.txt" "" "" "")
    (World {["a.css" := ".fa-code:before{}"]} [] (sample_os ["."] []))
  = (Raise (IsADirectoryError "."),
     World {["a.css" := ".fa-code:before{}"]} [] (sample_os ["."] [])).
Proof. by vm_compute. Qed.

Example ex_two_rules :
  normalize_icons
    (extract_icon_classes ".fa-yin-yang::before{...}.fab-github:before{...}")
  = Ok (["fa-github"; "fa-yin-yang"], ["fa-github"], ["fa-yin-yang"]).
Proof. by vm_compute. Qed.

Example ex_fas_user :
  normalize_icons (extract_icon_classes ".fas-user:before{...}")
  = Ok (["fa-user"], [], ["fa-user"]).
Proof. by vm_compute. Qed.

Example ex_fas_and_fab_user :
  normalize_icons (extract_icon_classes ".fas-user:before{}.fab-user:before{}")
  = Ok (["fa-user"], ["fa-user"], []).
Proof. by vm_compute. Qed.

(** ** Strings *)

Lemma app_cons (c : ascii) (s t : string) : String c s +:+ t = String c (s +:+ t).
Proof. reflexivity. Qed.

Lemma app_empty_l (s : string) : "" +:+ s = s.
Proof. reflexivity. Qed.

Lemma app_empty_r (s : string) : s +:+ "" = s.
Proof. induction s as [|c s IH]; [done|]. by rewrite app_cons, IH. Qed.

Lemma app_assoc_s (s t u : string) : (s +:+ t) +:+ u = s +:+ t +:+ u.
Proof. induction s as [|c s IH]; [done|]. by rewrite !app_cons, IH. Qed.

Lemma length_app_s (s t : string) :
  String.length (s +:+ t) = String.length s + String.length t.
Proof. induction s as [|c s IH]; [done|]. rewrite app_cons. simpl. by rewrite IH. Qed.

Lemma startswith_spec (p s : string) :
  Str.startswith p s = true ↔ ∃ r, s = p +:+ r.
Proof.
  revert s. induction p as [|c p IH]; intros s; simpl.
  - split; [by exists s | done].
  - destruct s as [|d s]; [split; [done | by intros [r ?]]|].
    destruct (Ascii.eqb_spec c d) as [->|Hne]; simpl.
    + rewrite IH. split; intros [r Hr]; exists r.
      * by rewrite app_cons, <-Hr.
      * rewrite app_cons in Hr. by simplify_eq.
    + split; [done|]. intros [r Hr]. rewrite app_cons in Hr. by simplify_eq.
Qed.

Lemma startswith_app (p r : string) : Str.startswith p (p +:+ r) = true.
Proof. apply startswith_spec. by exists r. Qed.

Lemma drop_app (p r : string) : Str.drop (String.length p) (p +:+ r) = r.
Proof. induction p as [|c p IH]; [by destruct r|]. by rewrite app_cons. Qed.

Lemma str_le_ne_lt (s t : string) : String.le s t → s ≠ t → str_lt s t.
Proof.
  unfold String.le, str_lt, String.leb, String.ltb. intros Hle Hne.
  destruct (String.compare s t) eqn:Hc; [|done|done].
  by apply String.compare_eq_iff in Hc.
Qed.

Lemma str_lt_irrefl (s : string) : ¬ str_lt s s.
Proof.
  unfold str_lt, String.ltb. intros H.
  assert (String.compare s s = Eq) as Hc; [|by rewrite Hc in H].
  pose proof (String.compare_antisym s s) as Ha.
  destruct (String.compare s s); done.
Qed.

(** ** [sorted] *)

Lemma elem_of_sorted (X : gset string) (x : string) : x ∈ sorted X ↔ x ∈ X.
Proof. unfold sorted. by rewrite merge_sort_Permutation, elem_of_elements. Qed.

Lemma NoDup_sorted (X : gset string) : NoDup (sorted X).
Proof. unfold sorted. rewrite merge_sort_Permutation. apply NoDup_elements. Qed.

Lemma length_sorted (X : gset string) : length (sorted X) = size X.
Proof. unfold sorted. by rewrite merge_sort_Permutation. Qed.

Lemma StronglySorted_lt_of_le (l : list string) :
  StronglySorted String.le l → NoDup l → StronglySorted str_lt l.
Proof.
  induction 1 as [|x l Hs IH Hall]; intros Hnd; [constructor|].
  apply NoDup_cons in Hnd as [Hx Hnd].
  constructor; [by apply IH|].
  rewrite Forall_forall in *. intros y Hy.
  apply str_le_ne_lt; [by apply Hall|]. intros ->. by apply Hx.
Qed.

Lemma sorted_strict (X : gset string) : StronglySorted str_lt (sorted X).
Proof.
  apply StronglySorted_lt_of_le; [|apply NoDup_sorted].
  unfold sorted. apply (StronglySorted_merge_sort _).
Qed.

(** ** The normalizer, token by token *)

Lemma startswith_any_spec (ps : list string) (s : string) :
  Str.startswith_any ps s = true ↔ ∃ p r, p ∈ ps ∧ s = p +:+ r.
Proof.
  unfold Str.startswith_any. rewrite existsb_exists. split.
  - intros (p & Hp & Hs). apply startswith_spec in Hs as [r ->].
    exists p, r. by rewrite list_elem_of_In.
  - intros (p & r & Hp & ->). exists p. rewrite <-list_elem_of_In.
    split; [done | apply startswith_app].
Qed.

Lemma split1_solid (p r : string) :
  p ∈ solid_prefixes → index (Str.split1 "-" (p +:+ r)) 1 = Ok r.
Proof.
  unfold solid_prefixes. rewrite !elem_of_cons, elem_of_nil.
  intros [->|[->|[->|[]]]]; by destruct r.
Qed.

Lemma solid_not_fa (p r : string) :
  p ∈ solid_prefixes →
  Str.startswith "fa-" (p +:+ r) = false ∧ Str.startswith "fab-" (p +:+ r) = false.
Proof.
  unfold solid_prefixes. rewrite !elem_of_cons, elem_of_nil.
  intros [->|[->|[->|[]]]]; done.
Qed.

Lemma normalize_step_fa (cls : string) (a : acc) :
  Str.startswith "fa-" cls = true →
  normalize_step cls a = Ok (Acc ({[cls]} ∪ base_icons a) (brand_icons a)).
Proof. intros H. unfold normalize_step. by rewrite H. Qed.

Lemma normalize_step_fab (cls : string) (a : acc) :
  Str.startswith "fab-" cls = true →
  normalize_step cls a
  = Ok (Acc (base_icons a) ({[Str.replace "fab-" "fa-" cls]} ∪ brand_icons a)).
Proof.
  intros H. unfold normalize_step. rewrite H.
  apply startswith_spec in H as [r ->]. done.
Qed.

Lemma normalize_step_solid (p r : string) (a : acc) :
  p ∈ solid_prefixes →
  normalize_step (p +:+ r) a
  = Ok (Acc ({["fa-" +:+ r]} ∪ base_icons a) (brand_icons a)).
Proof.
  intros Hp. unfold normalize_step.
  destruct (solid_not_fa p r Hp) as [-> ->].
  assert (Str.startswith_any ["fas-"; "far-"; "fal-"] (p +:+ r) = true) as ->.
  { apply startswith_any_spec. by exists p, r. }
  by rewrite split1_solid.
Qed.

Lemma normalize_step_other (cls : string) (a : acc) :
  Str.startswith "fa-" cls = false →
  Str.startswith "fab-" cls = false →
  Str.startswith_any solid_prefixes cls = false →
  normalize_step cls a = Ok a.
Proof.
  intros H1 H2 H3. unfold normalize_step, solid_prefixes in *. by rewrite H1, H2, H3.
Qed.

(** Case analysis on the branch of the loop body a token takes; each case
    rewrites the step with the lemma of its branch. *)
Ltac token_cases cls :=
  let H1 := fresh "Hfa" in
  let H2 := fresh "Hfab" in
  let H3 := fresh "Hsolid" in
  destruct (Str.startswith "fa-" cls) eqn:H1;
    [ rewrite ?normalize_step_fa by done
    | destruct (Str.startswith "fab-" cls) eqn:H2;
      [ rewrite ?normalize_step_fab by done
      | destruct (Str.startswith_any solid_prefixes cls) eqn:H3;
        [ apply startswith_any_spec in H3 as (? & ? & ? & ->);
          rewrite ?normalize_step_solid by done
        | rewrite ?normalize_step_other by done ] ] ];
  cbn [base_icons brand_icons].

(** The step never raises, and only ever adds to the two sets. *)
Lemma normalize_step_adds (cls : string) (a : acc) :
  normalize_step cls a
  = Ok (Acc (token_base cls ∪ base_icons a) (token_brand cls ∪ brand_icons a)).
Proof.
  unfold token_base, token_brand.
  token_cases cls; rewrite ?(right_id_L ∅ (∪)), ?(left_id_L ∅ (∪)); by destruct a.
Qed.

Lemma normalize_loop_adds (tokens : list string) (a : acc) :
  normalize_loop tokens a
  = Ok (Acc (⋃ (token_base <$> tokens) ∪ base_icons a)
            (⋃ (token_brand <$> tokens) ∪ brand_icons a)).
Proof.
  revert a. induction tokens as [|cls rest IH]; intros a; simpl.
  - destruct a. simpl. by rewrite !(left_id_L ∅ (∪)).
  - rewrite normalize_step_adds. simpl. rewrite IH. simpl.
    rewrite !(assoc_L (∪)).
    by rewrite (comm_L (∪) _ (token_base cls)), (comm_L (∪) _ (token_brand cls)).
Qed.

Lemma elem_of_base_of (raw : gset string) (x : string) :
  x ∈ base_of raw ↔ ∃ cls, cls ∈ raw ∧ x ∈ token_base cls.
Proof.
  unfold base_of. rewrite elem_of_union_list. split.
  - intros (X & HX & Hx). apply list_elem_of_fmap in HX as (cls & -> & Hcls).
    exists cls. by rewrite <-elem_of_elements.
  - intros (cls & Hcls & Hx). exists (token_base cls). split; [|done].
    apply list_elem_of_fmap. exists cls. by rewrite elem_of_elements.
Qed.

Lemma elem_of_brands_of (raw : gset string) (x : string) :
  x ∈ brands_of raw ↔ ∃ cls, cls ∈ raw ∧ x ∈ token_brand cls.
Proof.
  unfold brands_of. rewrite elem_of_union_list. split.
  - intros (X & HX & Hx). apply list_elem_of_fmap in HX as (cls & -> & Hcls).
    exists cls. by rewrite <-elem_of_elements.
  - intros (cls & Hcls & Hx). exists (token_brand cls). split; [|done].
    apply list_elem_of_fmap. exists cls. by rewrite elem_of_elements.
Qed.

(** The normalizer always returns, and what it returns. *)
Lemma normalize_icons_eq (raw : gset string) :
  normalize_icons raw
  = Ok (sorted (base_of raw ∪ brands_of raw),
        sorted (brands_of raw),
        sorted ((base_of raw ∪ brands_of raw) ∖ brands_of raw)).
Proof.
  unfold normalize_icons. rewrite normalize_loop_adds. simpl.
  fold (base_of raw) (brands_of raw).
  by rewrite !(right_id_L ∅ (∪)).
Qed.

Lemma replace_fab_head (r : string) :
  Str.replace "fab-" "fa-" ("fab-" +:+ r) = "fa-" +:+ Str.replace "fab-" "fa-" r.
Proof. reflexivity. Qed.

Lemma token_base_fa (cls x : string) :
  x ∈ token_base cls → Str.startswith "fa-" x = true.
Proof.
  unfold token_base.
  token_cases cls; rewrite ?(right_id_L ∅ (∪)), ?elem_of_singleton, ?elem_of_empty;
    try done; intros ->; [done | apply startswith_app].
Qed.

Lemma token_brand_inv (cls x : string) :
  x ∈ token_brand cls →
  Str.startswith "fab-" cls = true ∧ x = Str.replace "fab-" "fa-" cls.
Proof.
  unfold token_brand.
  token_cases cls; rewrite ?(right_id_L ∅ (∪)), ?elem_of_singleton, ?elem_of_empty;
    done.
Qed.

Lemma token_brand_fa (cls x : string) :
  x ∈ token_brand cls → Str.startswith "fa-" x = true.
Proof.
  intros [[r ->]%startswith_spec ->]%token_brand_inv.
  rewrite replace_fab_head. apply startswith_app.
Qed.

(** ** The writers *)

Lemma concat_cons (x : string) (l : list string) :
  String.concat "" (x :: l) = x +:+ String.concat "" l.
Proof. destruct l; [by rewrite app_empty_r | done]. Qed.

Lemma join_lines (items : list string) :
  items ≠ [] →
  Str.join (String "010" "") items +:+ String "010" ""
  = String.concat "" (map (fun name => name +:+ String "010" "") items).
Proof.
  induction items as [|x [|y rest] IH]; intros Hne; [done|done|].
  change (Str.join (String "010" "") (x :: y :: rest))
    with (x +:+ String "010" "" +:+ Str.join (String "010" "") (y :: rest)).
  rewrite !app_assoc_s, IH by done.
  change (map ?f (x :: ?l)) with (f x :: map f l).
  by rewrite concat_cons, app_assoc_s.
Qed.

(** ** The matcher *)

Lemma plus_set_sound (items : list Re.item) (s m rest : string) :
  (m, rest) ∈ Re.plus_set items s →
  s = m +:+ rest ∧ m ≠ "" ∧ Str.all (Re.set_mem items) m = true.
Proof.
  revert m rest. induction s as [|c t IH]; intros m rest; simpl.
  - by rewrite elem_of_nil.
  - destruct (Re.set_mem items c) eqn:Hc; [|by rewrite elem_of_nil].
    rewrite elem_of_app, list_elem_of_fmap, list_elem_of_singleton.
    intros [([m' rest'] & Heq & Hin)|Heq]; simplify_eq.
    + destruct (IH _ _ Hin) as (-> & Hne & Hall).
      rewrite app_cons. simpl. by rewrite Hc, Hall.
    + simpl. by rewrite Hc.
Qed.

(** Every way the matcher finds splits the text into a word of the regex
    and the remainder. *)
Lemma exec_sound (r : Re.regex) (s m rest : string) :
  (m, rest) ∈ Re.exec r s → s = m +:+ rest ∧ lang r m.
Proof.
  revert s m rest. induction r as [c|items|r1 IH1 r2 IH2|r1 IH1|items];
    intros s m rest; simpl.
  - destruct s as [|d t]; [by rewrite elem_of_nil|].
    destruct (Ascii.eqb_spec c d) as [->|]; [|by rewrite elem_of_nil].
    rewrite list_elem_of_singleton. by intros [= -> ->].
  - destruct s as [|d t]; [by rewrite elem_of_nil|].
    destruct (Re.set_mem items d) eqn:Hd; [|by rewrite elem_of_nil].
    rewrite list_elem_of_singleton. intros [= -> ->]. eauto.
  - rewrite list_elem_of_bind. intros ([m1 s1] & Hin & H1).
    apply list_elem_of_bind in Hin as ([m2 s2] & Hin & H2).
    apply list_elem_of_singleton in Hin. simpl in *. simplify_eq.
    destruct (IH1 _ _ _ H1) as [-> L1]. destruct (IH2 _ _ _ H2) as [-> L2].
    split; [by rewrite app_assoc_s | eauto].
  - rewrite elem_of_app, list_elem_of_singleton.
    intros [Hin|[= -> ->]]; [|by auto].
    destruct (IH1 _ _ _ Hin) as [-> L1]. auto.
  - intros Hin. by apply plus_set_sound in Hin as (-> & ? & ?).
Qed.

(** A match found at the start of [s]: the three parts of the pattern in
    a row, then the remainder. *)
Lemma match_at_sound (p : Re.pattern) (s : string) (f : Re.found) :
  Re.match_at p s = Some f →
  ∃ m1 m3 rest,
    s = m1 +:+ Re.group1 f +:+ m3 +:+ rest ∧
    Re.group0 f = m1 +:+ Re.group1 f +:+ m3 ∧
    lang (Re.pre p) m1 ∧ lang (Re.group p) (Re.group1 f) ∧ lang (Re.post p) m3.
Proof.
  unfold Re.match_at. intros Hhd. apply head_Some_elem_of in Hhd.
  apply list_elem_of_bind in Hhd as ([m1 s1] & Hin & H1).
  apply list_elem_of_bind in Hin as ([m2 s2] & Hin & H2).
  apply list_elem_of_bind in Hin as ([m3 s3] & Hin & H3).
  apply list_elem_of_singleton in Hin. simpl in *. subst f. simpl.
  apply exec_sound in H1 as [-> L1]. apply exec_sound in H2 as [-> L2].
  apply exec_sound in H3 as [-> L3].
  by exists m1, m3, s3.
Qed.

(** Every string [findall] returns is group 1 of a match somewhere in the
    text. *)
Lemma findall_from_sound (p : Re.pattern) (s : string) (skip : nat) (x : string) :
  x ∈ Re.findall_from p skip s →
  ∃ s1 s2 f, s = s1 +:+ s2 ∧ Re.match_at p s2 = Some f ∧ Re.group1 f = x.
Proof.
  revert skip. induction s as [|c t IH]; intros skip.
  - destruct skip; simpl; [|by rewrite elem_of_nil].
    destruct (Re.match_at p "") as [f|] eqn:Hm; [|by rewrite elem_of_nil].
    rewrite list_elem_of_singleton. intros ->. by exists "", "", f.
  - assert (∀ k, x ∈ Re.findall_from p k t →
              ∃ s1 s2 f, String c t = s1 +:+ s2 ∧ Re.match_at p s2 = Some f
                         ∧ Re.group1 f = x) as Htail.
    { intros k Hk. destruct (IH _ Hk) as (s1 & s2 & f & -> & Hm & Hx).
      by exists (String c s1), s2, f. }
    destruct skip; simpl; [|by apply Htail].
    destruct (Re.match_at p (String c t)) as [f|] eqn:Hm; [|by apply Htail].
    rewrite elem_of_cons. intros [->|Hin]; [|by eapply Htail].
    by exists "", (String c t), f.
Qed.

(** ** Evaluating [findall] along a text *)

Lemma findall_from_skip (p : Re.pattern) (m s : string) :
  Re.findall_from p (String.length m) (m +:+ s) = Re.findall_from p 0 s.
Proof. induction m as [|c m IH]; [by destruct s | by rewrite app_cons]. Qed.

Lemma findall_from_match (p : Re.pattern) (c : ascii) (m s cap : string) :
  Re.match_at p (String c m +:+ s) = Some (Re.Found cap (String c m)) →
  Re.findall_from p 0 (String c m +:+ s) = cap :: Re.findall_from p 0 s.
Proof.
  intros Hm. rewrite app_cons in *. simpl. rewrite Hm. simpl.
  by rewrite Nat.sub_0_r, findall_from_skip.
Qed.





(** ** The shape of what Pattern B captures *)

Lemma is_style_letter_lower (c : ascii) : is_style_letter c = true → is_lower c = true.
Proof.
  unfold is_style_letter, Re.set_mem. simpl.
  rewrite !orb_true_iff, !Ascii.eqb_eq. intros [->|[->|[->|[->|?]]]]; done.
Qed.

Lemma lang_before_marker (m : string) :
  lang before_marker m → m ∈ [":before"; "::before"].
Proof.
  unfold before_marker. cbn [lang Re.lit].
  intros (u & v & -> & -> & o & w & -> & Ho & Hw).
  destruct Hw as (? & ? & -> & -> & ? & ? & -> & -> & ? & ? & -> & -> & ? & ?
                  & -> & -> & ? & ? & -> & -> & ->).
  destruct Ho as [->| ->]; rewrite !elem_of_cons; auto.
Qed.

Lemma lang_style_group (tok : string) :
  lang (Re.group STYLE_SELECTOR_RE) tok → token_shape style_infix tok.
Proof.
  unfold STYLE_SELECTOR_RE. cbn [Re.group lang Re.lit].
  intros (fa & r1 & -> & (? & ? & -> & -> & ->) & o1 & r2 & -> & Ho1
                 & o2 & r3 & -> & Ho2 & h & slug & -> & -> & Hne & Hslug).
  exists (o1 +:+ o2), slug. rewrite !app_assoc_s. split; [done|]. split; [|done].
  destruct Ho1 as [->|(c & -> & Hc)], Ho2 as [->|(d & -> & Hd)]; simpl.
  - done.
  - done.
  - by apply is_style_letter_lower.
  - unfold is_style_letter, is_lower. by rewrite Hc, Hd.
Qed.

(** What either pattern captures is a word of its group, and a selector of
    the text. *)
Lemma findall_selector_in (p : Re.pattern) (css tok : string) :
  Re.pre p = Re.Lit "." → Re.post p = before_marker →
  tok ∈ Re.findall p css → lang (Re.group p) tok ∧ selector_in css tok.
Proof.
  intros Hpre Hpost Hin.
  apply findall_from_sound in Hin as (s1 & s2 & f & -> & Hm & <-).
  apply match_at_sound in Hm as (m1 & m3 & rest & -> & _ & L1 & L2 & L3).
  rewrite Hpre in L1. rewrite Hpost in L3. simpl in L1. subst m1.
  split; [done|]. exists s1, m3, rest.
  split; [done | by apply lang_before_marker].
Qed.

(** ** Claims about the normalizer *)

(** C3.  For every raw set the normalizer returns three lists such that
    every brand is in the base list, the non-brand list holds exactly the
    base entries that are not brands, and each list is strictly ascending in
    the lexicographic order (hence free of duplicates). *)
Theorem normalize_icons_invariant (raw : gset string) :
  ∃ base brand non_brand,
    normalize_icons raw = Ok (base, brand, non_brand) ∧
    (∀ x, x ∈ brand → x ∈ base) ∧
    (∀ x, x ∈ non_brand ↔ x ∈ base ∧ x ∉ brand) ∧
    StronglySorted str_lt base ∧ StronglySorted str_lt brand ∧
    StronglySorted str_lt non_brand ∧
    NoDup base ∧ NoDup brand ∧ NoDup non_brand.
Proof.
  eexists _, _, _. split; [apply normalize_icons_eq|].
  split; [|split].
  - intros x. rewrite !elem_of_sorted, elem_of_union. auto.
  - intros x. by rewrite !elem_of_sorted, elem_of_difference.
  - repeat split; (apply sorted_strict || apply NoDup_sorted).
Qed.

(** C10.  Every string in each of the three lists the normalizer returns
    starts with [fa-]. *)
Theorem normalize_icons_fa_prefix (raw : gset string) :
  ∃ base brand non_brand,
    normalize_icons raw = Ok (base, brand, non_brand) ∧
    (∀ x, x ∈ base → Str.startswith "fa-" x = true) ∧
    (∀ x, x ∈ brand → Str.startswith "fa-" x = true) ∧
    (∀ x, x ∈ non_brand → Str.startswith "fa-" x = true).
Proof.
  assert (∀ x, x ∈ base_of raw ∪ brands_of raw → Str.startswith "fa-" x = true) as Hfa.
  { intros x. rewrite elem_of_union, elem_of_base_of, elem_of_brands_of.
    intros [(cls & _ & Hx)|(cls & _ & Hx)];
      [by eapply token_base_fa | by eapply token_brand_fa]. }
  eexists _, _, _. split; [apply normalize_icons_eq|].
  split; [|split].
  - intros x Hx%elem_of_sorted. auto.
  - intros x Hx%elem_of_sorted. apply Hfa, elem_of_union. auto.
  - intros x [Hx _]%elem_of_sorted%elem_of_difference. auto.
Qed.

Lemma token_base_solid (p rest : string) :
  p ∈ solid_prefixes → token_base (p +:+ rest) = {["fa-" +:+ rest]}.
Proof.
  intros Hp. unfold token_base. rewrite normalize_step_solid by done.
  cbn [base_icons]. by rewrite (right_id_L ∅ (∪)).
Qed.

Lemma token_other (cls : string) :
  Str.startswith "fa-" cls = false →
  Str.startswith "fab-" cls = false →
  Str.startswith_any solid_prefixes cls = false →
  token_base cls = ∅ ∧ token_brand cls = ∅.
Proof.
  intros H1 H2 H3. unfold token_base, token_brand.
  by rewrite normalize_step_other.
Qed.

(** What the normalizer returns for a raw set that holds a token with a
    solid-style prefix. *)
Lemma normalize_icons_solid (p rest : string) (raw : gset string) :
  p ∈ solid_prefixes → p +:+ rest ∈ raw →
  ∃ base brand non_brand,
    normalize_icons raw = Ok (base, brand, non_brand) ∧
    "fa-" +:+ rest ∈ base ∧
    ("fa-" +:+ rest ∈ brand →
     ∃ u, u ∈ raw ∧ Str.startswith "fab-" u = true
          ∧ Str.replace "fab-" "fa-" u = "fa-" +:+ rest).
Proof.
  intros Hp Hraw. eexists _, _, _. split; [apply normalize_icons_eq|]. split.
  - rewrite elem_of_sorted, elem_of_union, elem_of_base_of. left.
    exists (p +:+ rest). split; [done|].
    rewrite token_base_solid by done. by apply elem_of_singleton.
  - rewrite elem_of_sorted, elem_of_brands_of. intros (u & Hu & Hx).
    apply token_brand_inv in Hx as [Hfab ->]. by exists u.
Qed.

(** A token the normalizer does not recognise leaves its result as it is. *)
Lemma normalize_icons_other (cls : string) (raw : gset string) :
  Str.startswith "fa-" cls = false →
  Str.startswith "fab-" cls = false →
  Str.startswith_any solid_prefixes cls = false →
  normalize_icons ({[cls]} ∪ raw) = normalize_icons raw.
Proof.
  intros H1 H2 H3. destruct (token_other cls H1 H2 H3) as [Hb Hr].
  assert (base_of ({[cls]} ∪ raw) = base_of raw) as Hbase.
  { apply set_eq. intros x. rewrite !elem_of_base_of. split.
    - intros (c & [->%elem_of_singleton|Hc]%elem_of_union & Hx).
      + rewrite Hb in Hx. by apply elem_of_empty in Hx.
      + eauto.
    - intros (c & Hc & Hx). exists c. rewrite elem_of_union. auto. }
  assert (brands_of ({[cls]} ∪ raw) = brands_of raw) as Hbrand.
  { apply set_eq. intros x. rewrite !elem_of_brands_of. split.
    - intros (c & [->%elem_of_singleton|Hc]%elem_of_union & Hx).
      + rewrite Hr in Hx. by apply elem_of_empty in Hx.
      + eauto.
    - intros (c & Hc & Hx). exists c. rewrite elem_of_union. auto. }
  by rewrite !normalize_icons_eq, Hbase, Hbrand.
Qed.

(** C8.  A token that starts with none of [fa-], [fab-], [fas-], [far-],
    [fal-] is dropped: the loop body returns the two sets unchanged without
    raising, and the normalizer returns the same three lists with the token
    in the raw set as without it. *)
Theorem unrecognized_token_dropped (cls : string) :
  Str.startswith "fa-" cls = false →
  Str.startswith "fab-" cls = false →
  Str.startswith "fas-" cls = false →
  Str.startswith "far-" cls = false →
  Str.startswith "fal-" cls = false →
  (∀ a, normalize_step cls a = Ok a) ∧
  (∀ raw, ∃ lists,
     normalize_icons raw = Ok lists ∧ normalize_icons ({[cls]} ∪ raw) = Ok lists).
Proof.
  intros H1 H2 H3 H4 H5.
  assert (Str.startswith_any solid_prefixes cls = false) as Hs.
  { unfold Str.startswith_any, solid_prefixes. cbn [existsb]. by rewrite H3, H4, H5. }
  split.
  - intros a. by apply normalize_step_other.
  - intros raw. rewrite normalize_icons_other by done.
    rewrite normalize_icons_eq. by eexists.
Qed.

Lemma unrecognized_token_dropped_witness :
  (∀ a, normalize_step "fabx-foo" a = Ok a) ∧
  (∀ raw, ∃ lists,
     normalize_icons raw = Ok lists ∧ normalize_icons ({["fabx-foo"]} ∪ raw) = Ok lists).
Proof. apply (unrecognized_token_dropped "fabx-foo"); reflexivity. Defined.

(** ** Claims about the writers *)

(** C9 as stated does not hold: for the empty list the file is not empty,
    it holds one newline. *)
Lemma write_list_empty_not_empty :
  ¬ (∀ path items w,
       write_error (sys w) path = None →
       files (write_list path items w).2 !! file_of (sys w) path
       = Some (String.concat "" (map (fun name => name +:+ String "010" "") items))).
Proof.
  intros H. specialize (H "icon_list.txt" [] (World ∅ [] (sample_os [] [])) eq_refl).
  vm_compute in H. discriminate H.
Qed.

(** C9, amended.  The text [write_list] hands to the file at [path] is the
    names in order, each followed by one newline, when there is at least
    one name, and a single newline when there is none.  When the file can
    be opened for writing, the call returns and the file holds exactly that
    text, nothing else changes; when it cannot, the call raises the
    operating system's exception and changes nothing. *)
Theorem write_list_text (path : string) (items : list string) (w : world) :
  write_list path items w
  = match write_error (sys w) path with
    | Some e => (Raise e, w)
    | None =>
        (Ok (), World (<[file_of (sys w) path := list_text items]> (files w))
                  (stdout w) (sys w))
    end.
Proof.
  unfold write_list, write_text, list_text.
  destruct (write_error (sys w) path); [done|]. do 3 f_equal.
  destruct items as [|x rest]; [done|]. by apply join_lines.
Qed.

Lemma normalized_lengths (raw : gset string) (base brand non_brand : list string) :
  normalize_icons raw = Ok (base, brand, non_brand) →
  length brand + length non_brand = length base.
Proof.
  rewrite normalize_icons_eq. intros [= <- <- <-].
  rewrite !length_sorted.
  rewrite size_difference by apply union_subseteq_r.
  pose proof (subseteq_size (brands_of raw) (base_of raw ∪ brands_of raw)
                (union_subseteq_r _ _)).
  lia.
Qed.

(** C4.  For the three lists the normalizer returns, [write_json] stores
    (or, when the file cannot be opened, raises before storing) the
    serialisation of a dict whose [count_total], [count_brands] and
    [count_non_brands] are the lengths of its [icons], [brands] and
    [non_brands] arrays, and whose two partial counts add up to the total. *)
Theorem write_json_counts (json_dumps : jvalue → string) (raw : gset string)
    (path : string) (w : world) :
  ∃ base brand non_brand data total brands non_brands,
    normalize_icons raw = Ok (base, brand, non_brand) ∧
    write_json json_dumps path base brand non_brand w
    = match write_error (sys w) path with
      | Some e => (Raise e, w)
      | None =>
          (Ok (), World (<[file_of (sys w) path := json_dumps data]> (files w))
                    (stdout w) (sys w))
      end ∧
    int_field "count_total" data = Some total ∧
    int_field "count_brands" data = Some brands ∧
    int_field "count_non_brands" data = Some non_brands ∧
    list_field_len "icons" data = Some total ∧
    list_field_len "brands" data = Some brands ∧
    list_field_len "non_brands" data = Some non_brands ∧
    brands + non_brands = total.
Proof.
  destruct (normalize_icons raw) as [e|[[base brand] non_brand]] eqn:Hn;
    [by rewrite normalize_icons_eq in Hn|].
  exists base, brand, non_brand, (json_data base brand non_brand).
  exists (length base), (length brand), (length non_brand).
  split; [done|]. split; [done|].
  unfold int_field, list_field_len, field, json_data. simpl.
  rewrite !length_map. repeat split; try done.
  by eapply normalized_lengths.
Qed.

(** ** Claims about the extractor *)

(** C2 as stated does not hold: Pattern B captures [fabx-foo], which has
    two letters between [fa] and the first hyphen. *)
Lemma style_pattern_two_letters :
  ¬ (∀ css tok,
       tok ∈ Re.findall STYLE_SELECTOR_RE css →
       token_shape one_letter_infix tok ∧ selector_in css tok).
Proof.
  intros H.
  destruct (H ".fabx-foo:before{}" "fabx-foo") as [(infix & slug & Heq & Hi & _) _].
  { vm_compute. left. }
  destruct infix as [|c [|d i]]; [| |done];
    rewrite ?app_cons, ?app_empty_l in Heq; by simplify_eq.
Qed.

(** C2, amended.  Every token Pattern B captures is [fa], then no letter,
    one lowercase letter, or one of b, r, s, l followed by a lowercase
    letter, then a hyphen, then a non-empty slug of lowercase letters,
    digits and hyphens; in the text it stands right after a dot and right
    before [:before] or [::before]. *)
Theorem style_pattern_shape (css tok : string) :
  tok ∈ Re.findall STYLE_SELECTOR_RE css →
  token_shape style_infix tok ∧ selector_in css tok.
Proof.
  intros [L Hsel]%findall_selector_in; [|done..].
  split; [by apply lang_style_group | done].
Qed.

Lemma style_pattern_shape_witness :
  token_shape style_infix "fabx-foo" ∧ selector_in ".fabx-foo:before{}" "fabx-foo".
Proof. apply style_pattern_shape. vm_compute. left. Defined.

(** C1, at a token with a second [fab-] inside: the selector
    [.fab-prefab-x:before] is captured as [fab-prefab-x]; stripping the
    leading [fab-] gives [fa-prefab-x], but the normalizer puts
    [fa-prefa-x] in the base and brand lists, because [replace] rewrites
    every occurrence. *)
Theorem fab_replace_rewrites_inner_occurrence :
  extract_icon_classes ".fab-prefab-x:before{}" = {["fab-prefab-x"]} ∧
  Str.startswith "fa-" "fab-prefab-x" = false ∧
  Str.startswith "fab-" "fab-prefab-x" = true ∧
  "fa-" +:+ Str.drop 4 "fab-prefab-x" = "fa-prefab-x" ∧
  normalize_icons {["fab-prefab-x"]} = Ok (["fa-prefa-x"], ["fa-prefa-x"], []).
Proof. repeat split; by vm_compute. Qed.

(** Where [fab-] occurs only at the front, [replace] does strip just the
    prefix. *)
Lemma replace_absent (old new s : string) :
  Str.contains old s = false → Str.replace old new s = s.
Proof.
  unfold Str.replace. induction s as [|c t IH]; [done|].
  cbn [Str.contains Str.replace_from]. intros [Hs Ht]%orb_false_iff.
  by rewrite Hs, IH.
Qed.

Lemma normalize_step_fab_plain (rest : string) (a : acc) :
  Str.contains "fab-" rest = false →
  normalize_step ("fab-" +:+ rest) a
  = Ok (Acc (base_icons a) ({["fa-" +:+ rest]} ∪ brand_icons a)).
Proof.
  intros H. rewrite normalize_step_fab by apply startswith_app.
  by rewrite replace_fab_head, replace_absent.
Qed.

(** ** Text without a dot *)



(** ** [findall] misses no selector *)

Lemma all_app (f : ascii → bool) (s t : string) :
  Str.all f (s +:+ t) = Str.all f s && Str.all f t.
Proof.
  induction s as [|c s IH]; [done|].
  rewrite app_cons. cbn [Str.all]. by rewrite IH, andb_assoc.
Qed.

Lemma all_impl (f g : ascii → bool) (s : string) :
  (∀ c, f c = true → g c = true) → Str.all f s = true → Str.all g s = true.
Proof.
  intros Hfg. induction s as [|c s IH]; [done|].
  cbn [Str.all]. intros [Hc Hs]%andb_true_iff. by rewrite (Hfg c Hc), IH.
Qed.

Lemma take_app_length (s t : string) : Str.take (String.length s) (s +:+ t) = s.
Proof.
  induction s as [|c s IH]; [by destruct t|].
  rewrite app_cons. cbn [String.length Str.take]. by rewrite IH.
Qed.

Lemma contains_spec (sub s : string) :
  Str.contains sub s = true ↔ ∃ s1 s2, s = s1 +:+ sub +:+ s2.
Proof.
  induction s as [|c t IH]; cbn [Str.contains]; rewrite orb_true_iff, startswith_spec.
  - split.
    + intros [[r Hr]|?]; [|done]. by exists "", r.
    + intros (s1 & s2 & Hs). left. destruct s1; [by exists s2|done].
  - rewrite IH. split.
    + intros [[r Hr]|(s1 & s2 & ->)]; [by exists "", r|by exists (String c s1), s2].
    + intros (s1 & s2 & Hs). destruct s1 as [|d s1].
      * left. by exists s2.
      * right. rewrite app_cons in Hs. simplify_eq. by exists s1, s2.
Qed.

Lemma slug_not_dot (c : ascii) : Re.set_mem slug_set c = true → not_dot c = true.
Proof.
  unfold not_dot. destruct (Ascii.eqb_spec c ".") as [->|]; [|done].
  by vm_compute.
Qed.

Lemma lower_not_dot (c : ascii) : is_lower c = true → not_dot c = true.
Proof.
  unfold not_dot. destruct (Ascii.eqb_spec c ".") as [->|]; [|done].
  by vm_compute.
Qed.

Lemma style_token_no_dot (tok : string) :
  token_shape style_infix tok → Str.all not_dot tok = true.
Proof.
  intros (infix & slug & -> & Hi & _ & Hslug).
  rewrite !all_app, (all_impl _ _ slug slug_not_dot Hslug), !andb_true_r.
  destruct infix as [|c [|d [|e i]]]; [done| | |done]; cbn [style_infix Str.all] in *.
  - by rewrite (lower_not_dot c Hi).
  - apply andb_true_iff in Hi as [Hc Hd].
    by rewrite (lower_not_dot c (is_style_letter_lower c Hc)), (lower_not_dot d Hd).
Qed.

(** A match of Pattern B is a dot followed by text without a dot. *)
Lemma style_match_no_dot (s : string) (f : Re.found) :
  Re.match_at STYLE_SELECTOR_RE s = Some f →
  ∃ g rest, Re.group0 f = "." +:+ g ∧ Str.all not_dot g = true ∧ s = "." +:+ g +:+ rest.
Proof.
  intros Hm. apply match_at_sound in Hm as (m1 & m3 & rest & -> & -> & L1 & L2 & L3).
  simpl in L1. subst m1. exists (Re.group1 f +:+ m3), rest.
  rewrite !app_assoc_s. split; [done|]. split; [|done].
  rewrite all_app, (style_token_no_dot _ (lang_style_group _ L2)).
  apply lang_before_marker in L3.
  rewrite !elem_of_cons, elem_of_nil in L3. by destruct L3 as [->|[->|[]]].
Qed.

Lemma findall_style_complete (s1 s2 : string) (f : Re.found) (skip : nat) :
  Re.match_at STYLE_SELECTOR_RE s2 = Some f →
  Str.all not_dot (Str.take skip (s1 +:+ s2)) = true →
  Re.group1 f ∈ Re.findall_from STYLE_SELECTOR_RE skip (s1 +:+ s2).
Proof.
  intros Hm. revert skip. induction s1 as [|c t IH]; intros skip Hskip.
  - rewrite app_empty_l in *.
    destruct (style_match_no_dot _ _ Hm) as (g & rest & _ & _ & Heq).
    destruct s2 as [|d s2]; [done|]. rewrite app_cons in Heq. simplify_eq.
    destruct skip; [|done]. cbn [Re.findall_from]. rewrite Hm. apply list_elem_of_here.
  - rewrite app_cons in *. destruct skip as [|k].
    + cbn [Re.findall_from].
      destruct (Re.match_at STYLE_SELECTOR_RE (String c (t +:+ s2))) as [f'|] eqn:Hm'.
      * apply list_elem_of_further.
        destruct (style_match_no_dot _ _ Hm') as (g & rest & -> & Hg & Heq).
        rewrite app_cons, app_empty_l in *. simplify_eq.
        cbn [String.length].
        replace (S (String.length g) - 1) with (String.length g) by lia.
        apply IH.
        replace (t +:+ s2) with (g +:+ rest) by done.
        by rewrite take_app_length.
      * by apply IH.
    + cbn [Re.findall_from]. apply IH.
      cbn [Str.take Str.all] in Hskip. by apply andb_true_iff in Hskip as [_ ?].
Qed.

(** Wherever a text holds [.fas-user:before], Pattern B captures
    [fas-user]. *)
Lemma extract_fas_user (css : string) :
  Str.contains ".fas-user:before" css = true → "fas-user" ∈ extract_icon_classes css.
Proof.
  intros (s1 & s2 & ->)%contains_spec. unfold extract_icon_classes.
  apply elem_of_union_r, elem_of_list_to_set.
  by apply (findall_style_complete s1 (".fas-user:before" +:+ s2)
              (Re.Found "fas-user" ".fas-user:before") 0).
Qed.

Lemma replace_fab_inv (r t : string) :
  Str.replace "fab-" "fa-" r = t → Str.contains "fa-" t = false → r = t.
Proof.
  unfold Str.replace. revert t. induction r as [|c r IH]; intros t.
  - by intros <-.
  - cbn [Str.replace_from]. destruct (Str.startswith "fab-" (String c r)).
    + intros <- Hc. exfalso.
      eapply eq_true_false_abs; [|exact Hc]. apply contains_spec. by eexists "", _.
    + intros <-. cbn [Str.contains]. intros [_ Hc]%orb_false_iff.
      f_equal. by apply IH.
Qed.

(** * Further properties of the code *)

(** ** The matcher finds every word of a regex *)

Lemma plus_set_complete (items : list Re.item) (m rest : string) :
  m ≠ "" → Str.all (Re.set_mem items) m = true →
  (m, rest) ∈ Re.plus_set items (m +:+ rest).
Proof.
  induction m as [|c m IH]; [done|]. intros _.
  cbn [Str.all]. intros [Hc Hm]%andb_true_iff.
  rewrite app_cons. cbn [Re.plus_set]. rewrite Hc, elem_of_app.
  destruct m as [|d m]; [right; apply list_elem_of_here|].
  left. apply list_elem_of_fmap. exists (String d m, rest). split; [done|].
  by apply IH.
Qed.

Lemma exec_complete (r : Re.regex) (m rest : string) :
  lang r m → (m, rest) ∈ Re.exec r (m +:+ rest).
Proof.
  revert m rest. induction r as [c|items|r1 IH1 r2 IH2|r1 IH1|items];
    intros m rest; cbn [lang Re.exec].
  - intros ->. rewrite app_cons, Ascii.eqb_refl. apply list_elem_of_here.
  - intros (c & -> & Hc). rewrite app_cons, Hc. apply list_elem_of_here.
  - intros (u & v & -> & Lu & Lv). rewrite app_assoc_s.
    apply list_elem_of_bind. exists (u, v +:+ rest). split; [|by apply IH1].
    apply list_elem_of_bind. exists (v, rest). split; [|by apply IH2].
    apply list_elem_of_here.
  - rewrite elem_of_app. intros [->|L]; [right; apply list_elem_of_here|].
    left. by apply IH1.
  - intros [Hne Hall]. by apply plus_set_complete.
Qed.

(** When the three parts of a pattern stand in a row at the start of the
    text, the pattern matches there. *)
Lemma match_at_complete (p : Re.pattern) (m1 m2 m3 rest : string) :
  lang (Re.pre p) m1 → lang (Re.group p) m2 → lang (Re.post p) m3 →
  is_Some (Re.match_at p (m1 +:+ m2 +:+ m3 +:+ rest)).
Proof.
  intros L1 L2 L3. unfold Re.match_at.
  apply head_is_Some. intros Hnil.
  assert (Re.Found m2 (m1 +:+ m2 +:+ m3)
            ∈ (x1 ← Re.exec (Re.pre p) (m1 +:+ m2 +:+ m3 +:+ rest);
               x2 ← Re.exec (Re.group p) x1.2;
               x3 ← Re.exec (Re.post p) x2.2;
               [Re.Found x2.1 (x1.1 +:+ x2.1 +:+ x3.1)])) as Hin.
  { apply list_elem_of_bind. exists (m1, m2 +:+ m3 +:+ rest).
    split; [|by apply exec_complete].
    apply list_elem_of_bind. exists (m2, m3 +:+ rest).
    split; [|by apply exec_complete].
    apply list_elem_of_bind. exists (m3, rest).
    split; [|by apply exec_complete].
    apply list_elem_of_here. }
  rewrite Hnil in Hin. by apply elem_of_nil in Hin.
Qed.

(** ** What the two patterns capture, exactly *)

Lemma lower_in_slug_set (c : ascii) : is_lower c = true → Re.set_mem slug_set c = true.
Proof.
  unfold is_lower, slug_set, Re.set_mem. cbn [existsb].
  rewrite orb_false_r. by intros ->.
Qed.

Lemma slug_not_colon (c : ascii) : Re.set_mem slug_set c = true → not_colon c = true.
Proof.
  unfold not_colon. destruct (Ascii.eqb_spec c ":") as [->|]; [|done].
  by vm_compute.
Qed.

(** A captured token holds lowercase letters, digits and hyphens only. *)
Lemma style_token_chars (tok : string) :
  token_shape style_infix tok → Str.all (Re.set_mem slug_set) tok = true.
Proof.
  intros (infix & slug & -> & Hi & _ & Hslug).
  rewrite !all_app, Hslug, !andb_true_r.
  destruct infix as [|c [|d [|e i]]]; [done| | |done]; cbn [style_infix Str.all] in *.
  - by rewrite (lower_in_slug_set c Hi).
  - apply andb_true_iff in Hi as [Hc Hd].
    by rewrite (lower_in_slug_set c (is_style_letter_lower c Hc)),
      (lower_in_slug_set d Hd).
Qed.

Lemma lang_icon_group (tok : string) :
  lang (Re.group ICON_SELECTOR_RE) tok ↔ token_shape no_infix tok.
Proof.
  unfold ICON_SELECTOR_RE, token_shape. cbn [Re.group lang Re.lit]. split.
  - intros (fa & slug & -> & (? & ? & -> & -> & ? & ? & -> & -> & ->) & Hne & Hslug).
    by exists "", slug.
  - intros (infix & slug & -> & Hi & Hne & Hslug). destruct infix; [|done].
    exists "fa-", slug. split; [done|]. split; [|done].
    exists "f", "a-". split; [done|]. split; [done|]. by exists "a", "-".
Qed.

Lemma no_infix_style (tok : string) :
  token_shape no_infix tok → token_shape style_infix tok.
Proof.
  intros (infix & slug & -> & Hi & Hne & Hslug). destruct infix; [|done].
  by exists "", slug.
Qed.

Lemma lang_style_group_iff (tok : string) :
  lang (Re.group STYLE_SELECTOR_RE) tok ↔ token_shape style_infix tok.
Proof.
  split; [apply lang_style_group|].
  intros (infix & slug & -> & Hi & Hne & Hslug).
  unfold STYLE_SELECTOR_RE. cbn [Re.group lang Re.lit].
  exists "fa", (infix +:+ "-" +:+ slug). split; [done|].
  split; [by exists "f", "a"|].
  assert (lang (Re.Cat (Re.Lit "-") (Re.PlusSet slug_set)) ("-" +:+ slug)) as Htail.
  { by exists "-", slug. }
  destruct infix as [|c [|d [|e i]]]; [| | |done]; cbn [style_infix] in Hi.
  - exists "", ("-" +:+ slug). split; [done|]. split; [by left|].
    exists "", ("-" +:+ slug). split; [done|]. split; [by left | done].
  - destruct (is_style_letter c) eqn:Hc.
    + exists (String c ""), ("-" +:+ slug). split; [done|].
      split; [right; by exists c|].
      exists "", ("-" +:+ slug). split; [done|]. split; [by left | done].
    + exists "", (String c "" +:+ "-" +:+ slug). split; [done|]. split; [by left|].
      exists (String c ""), ("-" +:+ slug). split; [done|].
      split; [right; by exists c | done].
  - apply andb_true_iff in Hi as [Hc Hd].
    exists (String c ""), (String d "" +:+ "-" +:+ slug). split; [done|].
    split; [right; by exists c|].
    exists (String d ""), ("-" +:+ slug). split; [done|].
    split; [right; by exists d | done].
Qed.

Lemma lang_before_marker_iff (m : string) :
  lang before_marker m ↔ m ∈ [":before"; "::before"].
Proof.
  split; [apply lang_before_marker|].
  assert (lang (Re.lit "before") "before") as Hb.
  { cbn [lang Re.lit]. exists "b", "efore". split; [done|]. split; [done|].
    exists "e", "fore". split; [done|]. split; [done|].
    exists "f", "ore". split; [done|]. split; [done|].
    exists "o", "re". split; [done|]. split; [done|]. by exists "r", "e". }
  rewrite !elem_of_cons, elem_of_nil. unfold before_marker. cbn [lang].
  intros [->|[->|[]]].
  - exists ":", "before". split; [done|]. split; [done|].
    exists "", "before". split; [done|]. split; [by left | done].
  - exists ":", ":before". split; [done|]. split; [done|].
    exists ":", "before". split; [done|]. split; [by right | done].
Qed.

(** Two words over the same characters, each followed by a character
    outside them, that start the same text are the same word. *)
Lemma word_unique (f : ascii → bool) (a b x y : string) (c d : ascii) :
  Str.all f a = true → Str.all f b = true → f c = false → f d = false →
  a +:+ String c x = b +:+ String d y → a = b.
Proof.
  revert b. induction a as [|e a IH]; intros [|e' b]; cbn [Str.all];
    rewrite ?app_cons, ?app_empty_l.
  - done.
  - intros _ [He _]%andb_true_iff Hc _ [= -> _]. congruence.
  - intros [He _]%andb_true_iff _ _ Hd [= -> _]. congruence.
  - intros [_ Ha]%andb_true_iff [_ Hb]%andb_true_iff Hc Hd [= -> Heq].
    f_equal. by apply IH.
Qed.

Section Selector.

(** A pattern of the script's kind: a dot, a group of letters, digits and
    hyphens, then [::?before]. *)
Variable p : Re.pattern.
Hypothesis Hpre : Re.pre p = Re.Lit ".".
Hypothesis Hpost : Re.post p = before_marker.
Hypothesis Hchars : ∀ g, lang (Re.group p) g → Str.all (Re.set_mem slug_set) g = true.

Lemma marker_colon (m : string) :
  m ∈ [":before"; "::before"] → ∃ t, m = String ":" t.
Proof. rewrite !elem_of_cons, elem_of_nil. intros [->|[->|[]]]; by eexists. Qed.

(** At a selector the pattern matches and captures the class name. *)
Lemma selector_match (tok marker rest : string) :
  lang (Re.group p) tok → marker ∈ [":before"; "::before"] →
  ∃ f, Re.match_at p ("." +:+ tok +:+ marker +:+ rest) = Some f ∧ Re.group1 f = tok.
Proof.
  intros Ltok Hmarker.
  destruct (match_at_complete p "." tok marker rest) as [f Hf];
    [by rewrite Hpre | done | by rewrite Hpost; apply lang_before_marker_iff |].
  exists f. split; [done|].
  apply match_at_sound in Hf as (m1 & m3 & rest' & Heq & _ & L1 & L2 & L3).
  rewrite Hpre in L1. rewrite Hpost in L3. cbn [lang] in L1. subst m1.
  rewrite !app_cons, !app_empty_l in Heq. injection Heq as Heq.
  apply lang_before_marker in L3.
  destruct (marker_colon _ Hmarker) as [t ->]. destruct (marker_colon _ L3) as [t' ->].
  rewrite !app_cons in Heq. symmetry.
  eapply (word_unique not_colon); [| | | |exact Heq]; try done.
  - eapply all_impl; [apply slug_not_colon | by apply Hchars].
  - eapply all_impl; [apply slug_not_colon | by apply Hchars].
Qed.

(** A match is a dot followed by text without a dot. *)
Lemma selector_match_no_dot (s : string) (f : Re.found) :
  Re.match_at p s = Some f →
  ∃ g rest, Re.group0 f = "." +:+ g ∧ Str.all not_dot g = true ∧ s = "." +:+ g +:+ rest.
Proof.
  intros Hm. apply match_at_sound in Hm as (m1 & m3 & rest & -> & -> & L1 & L2 & L3).
  rewrite Hpre in L1. rewrite Hpost in L3. cbn [lang] in L1. subst m1.
  exists (Re.group1 f +:+ m3), rest.
  rewrite !app_assoc_s. split; [done|]. split; [|done].
  rewrite all_app, (all_impl _ _ _ slug_not_dot (Hchars _ L2)).
  apply lang_before_marker in L3.
  rewrite !elem_of_cons, elem_of_nil in L3. by destruct L3 as [->|[->|[]]].
Qed.

(** The scan reaches every match: what it skips holds no dot. *)
Lemma findall_from_complete (s1 s2 : string) (f : Re.found) (skip : nat) :
  Re.match_at p s2 = Some f →
  Str.all not_dot (Str.take skip (s1 +:+ s2)) = true →
  Re.group1 f ∈ Re.findall_from p skip (s1 +:+ s2).
Proof.
  intros Hm. revert skip. induction s1 as [|c t IH]; intros skip Hskip.
  - rewrite app_empty_l in *.
    destruct (selector_match_no_dot _ _ Hm) as (g & rest & _ & _ & Heq).
    destruct s2 as [|d s2]; [done|]. rewrite app_cons in Heq. simplify_eq.
    destruct skip; [|done]. cbn [Re.findall_from]. rewrite Hm. apply list_elem_of_here.
  - rewrite app_cons in *. destruct skip as [|k].
    + cbn [Re.findall_from].
      destruct (Re.match_at p (String c (t +:+ s2))) as [f'|] eqn:Hm'.
      * apply list_elem_of_further.
        destruct (selector_match_no_dot _ _ Hm') as (g & rest & -> & Hg & Heq).
        rewrite app_cons, app_empty_l in *. simplify_eq.
        cbn [String.length].
        replace (S (String.length g) - 1) with (String.length g) by lia.
        apply IH.
        replace (t +:+ s2) with (g +:+ rest) by done.
        by rewrite take_app_length.
      * by apply IH.
    + cbn [Re.findall_from]. apply IH.
      cbn [Str.take Str.all] in Hskip. by apply andb_true_iff in Hskip as [_ ?].
Qed.

(** [findall] returns exactly the class names of the selectors in the
    text. *)
Lemma findall_exact (css tok : string) :
  tok ∈ Re.findall p css ↔ lang (Re.group p) tok ∧ selector_in css tok.
Proof.
  split; [by apply findall_selector_in|].
  intros [Ltok (s1 & marker & s2 & -> & Hmarker)].
  destruct (selector_match tok marker s2 Ltok Hmarker) as (f & Hf & <-).
  by apply (findall_from_complete s1 _ f 0).
Qed.

End Selector.

Lemma icon_group_chars (g : string) :
  lang (Re.group ICON_SELECTOR_RE) g → Str.all (Re.set_mem slug_set) g = true.
Proof. intros L%lang_icon_group%no_infix_style. by apply style_token_chars. Qed.

Lemma style_group_chars (g : string) :
  lang (Re.group STYLE_SELECTOR_RE) g → Str.all (Re.set_mem slug_set) g = true.
Proof. intros L%lang_style_group. by apply style_token_chars. Qed.

Lemma findall_icon_exact (css tok : string) :
  tok ∈ Re.findall ICON_SELECTOR_RE css ↔ token_shape no_infix tok ∧ selector_in css tok.
Proof.
  rewrite (findall_exact ICON_SELECTOR_RE eq_refl eq_refl icon_group_chars).
  by rewrite lang_icon_group.
Qed.

Lemma findall_style_exact (css tok : string) :
  tok ∈ Re.findall STYLE_SELECTOR_RE css
  ↔ token_shape style_infix tok ∧ selector_in css tok.
Proof.
  rewrite (findall_exact STYLE_SELECTOR_RE eq_refl eq_refl style_group_chars).
  by rewrite lang_style_group_iff.
Qed.

(** X1.  The extractor returns exactly the class names of the selectors in
    the text: a name is extracted if and only if it is [fa], then no
    letter, one lowercase letter or one of b, r, s, l followed by a
    lowercase letter, then a hyphen and a non-empty slug, and the text
    holds it right after a dot and right before [:before] or [::before]. *)
Theorem extract_icon_classes_exact (css tok : string) :
  tok ∈ extract_icon_classes css ↔ token_shape style_infix tok ∧ selector_in css tok.
Proof.
  unfold extract_icon_classes.
  rewrite elem_of_union, !elem_of_list_to_set, findall_icon_exact, findall_style_exact.
  split; [|by right].
  intros [[Hs ?]|?]; [|done]. split; [by apply no_infix_style | done].
Qed.

(** X2.  Pattern A adds nothing: every name it captures is captured by
    Pattern B too, so the extractor's result is the set of Pattern B's
    captures. *)
Theorem primary_pattern_redundant (css : string) :
  (∀ tok, tok ∈ Re.findall ICON_SELECTOR_RE css → tok ∈ Re.findall STYLE_SELECTOR_RE css) ∧
  extract_icon_classes css = list_to_set (Re.findall STYLE_SELECTOR_RE css).
Proof.
  assert (∀ tok, tok ∈ Re.findall ICON_SELECTOR_RE css
                 → tok ∈ Re.findall STYLE_SELECTOR_RE css) as Hsub.
  { intros tok. rewrite findall_icon_exact, findall_style_exact.
    intros [Hs ?]. split; [by apply no_infix_style | done]. }
  split; [done|]. unfold extract_icon_classes. apply set_eq. intros tok.
  rewrite elem_of_union, !elem_of_list_to_set. split; [|by right].
  intros [?|?]; [by apply Hsub | done].
Qed.

(** ** The normalizer as a function of the raw set *)

Lemma fab_not_fa (cls : string) :
  Str.startswith "fab-" cls = true → Str.startswith "fa-" cls = false.
Proof. by intros [r ->]%startswith_spec. Qed.

Lemma solid_rest_unique (p q r s : string) :
  p ∈ solid_prefixes → q ∈ solid_prefixes → p +:+ r = q +:+ s → r = s.
Proof.
  unfold solid_prefixes. rewrite !elem_of_cons, !elem_of_nil.
  intros [->|[->|[->|[]]]] [->|[->|[->|[]]]]; rewrite !app_cons, !app_empty_l;
    by intros [=].
Qed.

Lemma solid_not_other (p r : string) :
  p ∈ solid_prefixes → Str.startswith_any solid_prefixes (p +:+ r) = true.
Proof. intros Hp. apply startswith_any_spec. by exists p, r. Qed.

Lemma elem_of_token_brand (cls x : string) :
  x ∈ token_brand cls
  ↔ Str.startswith "fab-" cls = true ∧ x = Str.replace "fab-" "fa-" cls.
Proof.
  split; [apply token_brand_inv|]. intros [Hfab ->].
  unfold token_brand. rewrite normalize_step_fab by done.
  cbn [brand_icons]. rewrite (right_id_L ∅ (∪)). by apply elem_of_singleton.
Qed.

Lemma elem_of_token_base (cls x : string) :
  x ∈ token_base cls
  ↔ (Str.startswith "fa-" cls = true ∧ x = cls)
    ∨ (∃ p r, p ∈ solid_prefixes ∧ cls = p +:+ r ∧ x = "fa-" +:+ r).
Proof.
  unfold token_base.
  token_cases cls; rewrite ?(right_id_L ∅ (∪)), ?elem_of_singleton, ?elem_of_empty.
  - split; [by left|]. intros [[_ ->]|(p & r & Hp & -> & _)]; [done|].
    destruct (solid_not_fa p r Hp). congruence.
  - split; [done|]. intros [[? _]|(p & r & Hp & -> & _)]; [done|].
    destruct (solid_not_fa p r Hp). congruence.
  - split.
    + intros ->. right. by eexists _, _.
    + intros [[Hc _]|(p & r & Hp & Heq & ->)]; [congruence|].
      f_equal. symmetry. eapply solid_rest_unique; [| |exact Heq]; done.
  - split; [done|]. intros [[? _]|(p & r & Hp & -> & _)]; [done|].
    pose proof (solid_not_other p r Hp). congruence.
Qed.

Lemma union_list_same_elems (f : string → gset string) (l l' : list string) :
  (∀ x, x ∈ l ↔ x ∈ l') → ⋃ (f <$> l) = ⋃ (f <$> l').
Proof.
  intros Hl. apply set_eq. intros y. rewrite !elem_of_union_list.
  split; intros (X & (x & -> & Hx)%list_elem_of_fmap & Hy);
    exists (f x); (split; [|done]); apply list_elem_of_fmap; exists x;
    (split; [done|]); by apply Hl.
Qed.

(** X3.  The loop's result depends only on which tokens it visits, not on
    their order or on repetitions; so the order in which Python iterates
    the raw set cannot change the normalizer's output. *)
Theorem normalize_loop_order_irrelevant (tokens tokens' : list string) (a : acc) :
  (∀ x, x ∈ tokens ↔ x ∈ tokens') →
  normalize_loop tokens a = normalize_loop tokens' a.
Proof.
  intros H. rewrite !normalize_loop_adds.
  by rewrite (union_list_same_elems token_base _ _ H),
    (union_list_same_elems token_brand _ _ H).
Qed.

Lemma normalize_loop_order_irrelevant_witness :
  normalize_loop ["fab-github"; "fa-code"; "fas-user"] (Acc ∅ ∅)
  = normalize_loop ["fas-user"; "fab-github"; "fa-code"; "fab-github"] (Acc ∅ ∅).
Proof.
  apply normalize_loop_order_irrelevant. intros x.
  rewrite !elem_of_cons, !elem_of_nil. tauto.
Defined.

(** X4.  The three lists in terms of the raw set: the brand list holds
    exactly the names [fa-] followed by the rewritten rest of a [fab-]
    token; the base list holds the brands, the raw tokens that start with
    [fa-], and [fa-] followed by the rest of each [fas-], [far-] or [fal-]
    token, and nothing else. *)
Theorem normalize_icons_members (raw : gset string) :
  ∃ base brand non_brand,
    normalize_icons raw = Ok (base, brand, non_brand) ∧
    (∀ x, x ∈ brand ↔
          ∃ r, "fab-" +:+ r ∈ raw ∧ x = "fa-" +:+ Str.replace "fab-" "fa-" r) ∧
    (∀ x, x ∈ base ↔
          x ∈ brand
          ∨ (x ∈ raw ∧ Str.startswith "fa-" x = true)
          ∨ (∃ p r, p ∈ ["fas-"; "far-"; "fal-"] ∧ p +:+ r ∈ raw ∧ x = "fa-" +:+ r)).
Proof.
  eexists _, _, _. split; [apply normalize_icons_eq|].
  assert (∀ x, x ∈ brands_of raw ↔
               ∃ r, "fab-" +:+ r ∈ raw ∧ x = "fa-" +:+ Str.replace "fab-" "fa-" r)
    as Hbrand.
  { intros x. rewrite elem_of_brands_of. split.
    - intros (cls & Hcls & [[r ->]%startswith_spec ->]%elem_of_token_brand).
      exists r. by rewrite replace_fab_head.
    - intros (r & Hr & ->). exists ("fab-" +:+ r). split; [done|].
      apply elem_of_token_brand. by rewrite startswith_app, replace_fab_head. }
  split.
  - intros x. by rewrite elem_of_sorted.
  - intros x. rewrite !elem_of_sorted, elem_of_union, elem_of_base_of.
    split.
    + intros [(cls & Hcls & Hx%elem_of_token_base)|?]; [|by left].
      right. destruct Hx as [[? ->]|(p & r & Hp & -> & ->)]; [by left|].
      right. by exists p, r.
    + intros [?|[[Hx Hfa]|(p & r & Hp & Hr & ->)]]; [by right| |].
      * left. exists x. split; [done|]. apply elem_of_token_base. by left.
      * left. exists (p +:+ r). split; [done|]. apply elem_of_token_base.
        right. by exists p, r.
Qed.

(** X5.  A brand wins: for every [fab-] token of the raw set, the name it
    yields is in the brand and base lists and not in the non-brand list,
    whatever else the raw set holds (the same name as a [fa-] or [fas-]
    token included). *)
Theorem brand_name_never_non_brand (raw : gset string) (r : string) :
  "fab-" +:+ r ∈ raw →
  ∃ base brand non_brand,
    normalize_icons raw = Ok (base, brand, non_brand) ∧
    "fa-" +:+ Str.replace "fab-" "fa-" r ∈ brand ∧
    "fa-" +:+ Str.replace "fab-" "fa-" r ∈ base ∧
    "fa-" +:+ Str.replace "fab-" "fa-" r ∉ non_brand.
Proof.
  intros Hr. eexists _, _, _. split; [apply normalize_icons_eq|].
  assert ("fa-" +:+ Str.replace "fab-" "fa-" r ∈ brands_of raw) as Hin.
  { apply elem_of_brands_of. exists ("fab-" +:+ r). split; [done|].
    apply elem_of_token_brand. by rewrite startswith_app, replace_fab_head. }
  rewrite !elem_of_sorted, elem_of_union, elem_of_difference. tauto.
Qed.

Lemma brand_name_never_non_brand_witness :
  ∃ base brand non_brand,
    normalize_icons {["fa-github"; "fab-github"; "fas-github"]}
    = Ok (base, brand, non_brand) ∧
    "fa-github" ∈ brand ∧ "fa-github" ∈ base ∧ "fa-github" ∉ non_brand.
Proof.
  apply (brand_name_never_non_brand {["fa-github"; "fab-github"; "fas-github"]} "github").
  by vm_compute.
Defined.

Lemma sorted_list_to_set_sorted (X : gset string) :
  list_to_set (sorted X) = X.
Proof. apply set_eq. intros x. by rewrite elem_of_list_to_set, elem_of_sorted. Qed.

Lemma base_of_fa (X : gset string) :
  (∀ x, x ∈ X → Str.startswith "fa-" x = true) →
  base_of X = X ∧ brands_of X = ∅.
Proof.
  intros Hfa. split; apply set_eq; intros x.
  - rewrite elem_of_base_of. split.
    + intros (cls & Hcls & [[_ ->]|(p & r & Hp & -> & _)]%elem_of_token_base); [done|].
      destruct (solid_not_fa p r Hp) as [Hn _]. rewrite (Hfa _ Hcls) in Hn. done.
    + intros Hx. exists x. split; [done|]. apply elem_of_token_base. left. auto.
  - rewrite elem_of_brands_of, elem_of_empty. split; [|done].
    intros (cls & Hcls & [Hfab%fab_not_fa _]%elem_of_token_brand).
    rewrite (Hfa _ Hcls) in Hfab. done.
Qed.

(** X6.  Normalizing the base list again changes nothing: fed its own base
    list as raw set, the normalizer returns the same base list, no brand,
    and the base list as non-brand list (the brand classification is not
    kept by the names themselves). *)
Theorem normalize_icons_base_stable (raw : gset string)
    (base brand non_brand : list string) :
  normalize_icons raw = Ok (base, brand, non_brand) →
  normalize_icons (list_to_set base) = Ok (base, [], base).
Proof.
  rewrite normalize_icons_eq. intros [= <- _ _].
  rewrite sorted_list_to_set_sorted, normalize_icons_eq.
  destruct (base_of_fa (base_of raw ∪ brands_of raw)) as [-> ->].
  { intros x. rewrite elem_of_union, elem_of_base_of, elem_of_brands_of.
    intros [(cls & _ & Hx)|(cls & _ & Hx)];
      [by eapply token_base_fa | by eapply token_brand_fa]. }
  rewrite (right_id_L ∅ (∪)), difference_empty_L.
  unfold sorted at 2. by rewrite elements_empty.
Qed.

Lemma normalize_icons_base_stable_witness :
  normalize_icons (list_to_set ["fa-code"; "fa-github"]) = Ok (["fa-code"; "fa-github"], [], ["fa-code"; "fa-github"]).
Proof.
  apply (normalize_icons_base_stable {["fab-github"; "fa-code"]} _ ["fa-github"] ["fa-code"]).
  by vm_compute.
Defined.

Lemma size_union_le (X Y : gset string) : size (X ∪ Y) ≤ size X + size Y.
Proof.
  rewrite size_union_alt.
  pose proof (subseteq_size (Y ∖ X) Y (subseteq_difference_l _ _ _ (reflexivity Y))).
  lia.
Qed.

Lemma token_adds_at_most_one (cls : string) :
  size (token_base cls ∪ token_brand cls) ≤ 1.
Proof.
  unfold token_base, token_brand.
  token_cases cls;
    rewrite ?(right_id_L ∅ (∪)), ?(left_id_L ∅ (∪)), ?size_singleton, ?size_empty; lia.
Qed.

Lemma loop_adds_at_most_length (tokens : list string) :
  size (⋃ (token_base <$> tokens) ∪ ⋃ (token_brand <$> tokens)) ≤ length tokens.
Proof.
  induction tokens as [|cls rest IH]; cbn [fmap list_fmap union_list foldr length].
  - by rewrite (left_id_L ∅ (∪)), size_empty.
  - replace (token_base cls ∪ ⋃ (token_base <$> rest)
             ∪ (token_brand cls ∪ ⋃ (token_brand <$> rest)))
      with ((token_base cls ∪ token_brand cls)
            ∪ (⋃ (token_base <$> rest) ∪ ⋃ (token_brand <$> rest))).
    + pose proof (size_union_le (token_base cls ∪ token_brand cls)
                    (⋃ (token_base <$> rest) ∪ ⋃ (token_brand <$> rest))).
      pose proof (token_adds_at_most_one cls). lia.
    + apply set_eq. intros x. rewrite !elem_of_union. tauto.
Qed.

(** X7.  The normalizer never returns more names than it was given
    tokens: the base list is at most as long as the raw set is large (and
    so are the brand and non-brand lists). *)
Theorem normalize_icons_no_more_than_raw (raw : gset string) :
  ∃ base brand non_brand,
    normalize_icons raw = Ok (base, brand, non_brand) ∧
    length base ≤ size raw ∧ length brand ≤ size raw ∧ length non_brand ≤ size raw.
Proof.
  destruct (normalize_icons raw) as [e|[[base brand] non_brand]] eqn:Hn;
    [by rewrite normalize_icons_eq in Hn|].
  exists base, brand, non_brand. split; [done|].
  pose proof (normalized_lengths raw base brand non_brand Hn) as Hsum.
  rewrite normalize_icons_eq in Hn. injection Hn as <- _ _.
  assert (length (sorted (base_of raw ∪ brands_of raw)) ≤ size raw) as Hle.
  { rewrite length_sorted. apply (loop_adds_at_most_length (elements raw)). }
  lia.
Qed.

(** ** The whole run, file by file *)

Lemma list_text_join (items : list string) :
  Str.join (String "010" "") items +:+ String "010" "" = list_text items.
Proof. destruct items as [|x rest]; [done|]. by apply join_lines. Qed.

Lemma csv_flags (all_icons brands : list string) :
  map (fun icon => [icon; if bool_decide (icon ∈ (list_to_set brands : gset string))
                          then "yes" else "no"]) all_icons
  = map (fun icon => [icon; if bool_decide (icon ∈ brands) then "yes" else "no"])
      all_icons.
Proof.
  apply map_ext. intros icon.
  by rewrite (bool_decide_ext _ _ (elem_of_list_to_set (C:=gset string) icon brands)).
Qed.

Lemma requested_outputs_writes (json_dumps : jvalue → string)
    (csv_row : list string → string) (Path : string → string) (a : args)
    (base brand non_brand : list string) :
  (writes json_dumps csv_row Path a base brand non_brand).*1 = requested_outputs Path a.
Proof.
  unfold writes, requested_outputs.
  by destruct (truthy (markdown a)), (truthy (json a)), (truthy (csv a)).
Qed.

Lemma normalize_icons_returns (raw : gset string) :
  ∃ base brand non_brand, normalize_icons raw = Ok (base, brand, non_brand).
Proof. eexists _, _, _. apply normalize_icons_eq. Qed.

(** *** The loader *)

Lemma load_css_world (css_path : string) (w w' : world) (r : result string) :
  load_css css_path w = (r, w') → w' = w.
Proof.
  unfold load_css, bind, exists_, read_text, throw.
  destruct (stat_error (sys w) css_path); [by intros [= _ <-]|].
  destruct (negb _); [by intros [= _ <-]|].
  destruct (read_error (sys w) css_path); [by intros [= _ <-]|].
  destruct (files w !! _); by intros [= _ <-].
Qed.



Lemma load_css_text (css_path text : string) (w w' : world) :
  load_css css_path w = (Ok text, w') →
  files w !! file_of (sys w) css_path = Some text.
Proof.
  unfold load_css, bind, exists_, read_text, throw.
  destruct (stat_error (sys w) css_path); [done|].
  destruct (negb _); [done|].
  destruct (read_error (sys w) css_path); [done|].
  destruct (files w !! _); [|done]. by intros [= -> _].
Qed.

(** *** Writing one file after the other *)


Lemma attempt_done (sy : os) (ws done : list (string * string)) (failure : option exn) :
  attempt sy ws = (done, failure) → ∃ rest, ws = done ++ rest.
Proof.
  revert done failure.
  induction ws as [|[path text] ws IH]; intros done failure; cbn [attempt].
  - intros [= <- _]. by exists [].
  - destruct (write_error sy path); [intros [= <- _]; by eexists|].
    destruct (attempt sy ws) as [done' failure'].
    intros [= <- _]. destruct (IH done' failure' eq_refl) as [rest ->]. by exists rest.
Qed.


Lemma write_all_other (sy : os) (ws : list (string * string)) (fs : gmap string string)
    (file : string) :
  file ∉ file_of sy <$> ws.*1 → write_all sy ws fs !! file = fs !! file.
Proof.
  revert fs. induction ws as [|[q t] ws IH]; intros fs; [done|].
  cbn [fmap list_fmap fst]. rewrite not_elem_of_cons. intros [Hne Hnin].
  cbn [write_all foldl fst snd]. fold (write_all sy ws (<[file_of sy q:=t]> fs)).
  by rewrite IH, lookup_insert_ne.
Qed.



(** *** [main] *)

Section Run.

Variable json_dumps : jvalue → string.
Variable csv_row : list string → string.
Variable Path : string → string.

(** A run whose input cannot be loaded raises what the loader raises and
    leaves the world as it was. *)
Lemma main_not_loaded (a : args) (w w0 : world) (e : exn) :
  load_css (Path (css a)) w = (Raise e, w0) →
  main json_dumps csv_row Path a w = (Raise e, w).
Proof.
  intros H. pose proof (load_css_world _ _ _ _ H) as ->.
  unfold main. unfold bind at 1. by rewrite H.
Qed.

(** A run whose input is loaded: the writes are attempted in order; the
    first that cannot be opened stops the run, with the earlier ones done
    and nothing printed; when there is none the summary is printed. *)
Lemma main_loaded (a : args) (w w0 : world) (text : string)
    (base brand non_brand : list string) :
  load_css (Path (css a)) w = (Ok text, w0) →
  normalize_icons (extract_icon_classes text) = Ok (base, brand, non_brand) →
  main json_dumps csv_row Path a w
  = match attempt (sys w) (writes json_dumps csv_row Path a base brand non_brand) with
    | (done, Some e) =>
        (Raise e, World (write_all (sys w) done (files w)) (stdout w) (sys w))
    | (_, None) =>
        (Ok (),
         World (write_all (sys w) (writes json_dumps csv_row Path a base brand non_brand)
                  (files w))
               (stdout w ++ summary a base brand non_brand) (sys w))
    end.
Proof.
  intros Hcss Hn. pose proof (load_css_world _ _ _ _ Hcss) as ->.
  unfold main. unfold bind at 1. rewrite Hcss.
  unfold bind at 1, lift. rewrite Hn.
  unfold writes, summary, write_all, when, bind, write_list, write_markdown_table,
    write_json, write_csv, write_text, print, ret, markdown_text, csv_rows.
  rewrite !list_text_join, csv_flags.
  destruct w as [fs so sy].
  destruct (truthy (markdown a)), (truthy (json a)), (truthy (csv a));
    cbn [files stdout sys app attempt];
    repeat (match goal with
            | |- context [write_error sy ?p] => destruct (write_error sy p)
            end; cbn [files stdout sys app attempt foldl fst snd]; try reflexivity);
    by rewrite <-?(assoc_L (++)).
Qed.

End Run.






(** X9.  No run touches a file it was not asked to write: whether it
    raises or returns, every file that none of the requested output paths
    leads to holds after the run what it held before (the CSS input
    included, unless an output path leads to it). *)
Theorem main_keeps_other_files (json_dumps : jvalue → string)
    (csv_row : list string → string) (Path : string → string) (a : args) (w : world)
    (file : string) :
  file ∉ file_of (sys w) <$> requested_outputs Path a →
  files (main json_dumps csv_row Path a w).2 !! file = files w !! file.
Proof.
  intros Hnin.
  destruct (load_css (Path (css a)) w) as [[e|text] w0] eqn:Hcss.
  - by rewrite (main_not_loaded _ _ _ _ _ _ _ Hcss).
  - destruct (normalize_icons_returns (extract_icon_classes text))
      as (base & brand & non_brand & Hn).
    rewrite (main_loaded _ _ _ _ _ _ _ _ _ _ Hcss Hn).
    rewrite <-(requested_outputs_writes json_dumps csv_row Path a base brand non_brand)
      in Hnin.
    destruct (attempt _ _) as [done [e|]] eqn:Hat; cbn [snd files].
    + apply write_all_other.
      apply attempt_done in Hat as [rest Hrest]. rewrite Hrest in Hnin.
      rewrite !fmap_app in Hnin. by apply not_elem_of_app in Hnin as [? _].
    + by apply write_all_other.
Qed.

Lemma main_keeps_other_files_witness :
  files (main (fun _ => "{}") (fun _ => "row") posix_path
           (Args "a.css" "all.txt" "brands.txt" "solids.txt" "" "" "")
           (World {["a.css" := ".fa-code:before{}"; "notes.txt" := "keep"]} []
              (sample_os ["."] []))).2
    !! "a.css"
  = files (World {["a.css" := ".fa-code:before{}"; "notes.txt" := "keep"]} []
             (sample_os ["."] [])) !! "a.css".
Proof.
  apply main_keeps_other_files. apply (bool_decide_unpack _). by vm_compute.
Defined.



(** X11.  A run that returns normally has printed the total, then the
    brand and non-brand counts, then the names of the files it wrote, as
    they were given on the command line; the counts are the lengths of the
    three lists and the two partial counts add up to the total.  A run that
    raises has printed nothing. *)
Theorem main_prints_summary (json_dumps : jvalue → string)
    (csv_row : list string → string) (Path : string → string) (a : args) (w : world) :
  (∀ text w',
     files w !! file_of (sys w) (Path (css a)) = Some text →
     main json_dumps csv_row Path a w = (Ok (), w') →
     ∃ base brand non_brand,
       normalize_icons (extract_icon_classes text) = Ok (base, brand, non_brand) ∧
       stdout w' = stdout w ++ summary a base brand non_brand ∧
       length brand + length non_brand = length base) ∧
  (∀ e w', main json_dumps csv_row Path a w = (Raise e, w') → stdout w' = stdout w).
Proof.
  destruct (load_css (Path (css a)) w) as [[e0|text0] w0] eqn:Hcss.
  { rewrite (main_not_loaded _ _ _ _ _ _ _ Hcss). split.
    - by intros text w' _ [=].
    - by intros e w' [= _ <-]. }
  destruct (normalize_icons_returns (extract_icon_classes text0))
    as (base & brand & non_brand & Hn).
  rewrite (main_loaded _ _ _ _ _ _ _ _ _ _ Hcss Hn).
  apply load_css_text in Hcss.
  destruct (attempt _ _) as [done [e0|]]; split.
  - by intros text w' _ [=].
  - by intros e w' [= _ <-].
  - intros text w' Htext [= <-]. rewrite Hcss in Htext. injection Htext as <-.
    exists base, brand, non_brand. split; [done|]. split; [done|].
    by eapply normalized_lengths.
  - by intros e w' [=].
Qed.

Lemma main_prints_summary_witness :
  ∃ base brand non_brand,
    normalize_icons (extract_icon_classes ".fa-code:before{}.fab-github:before{}")
    = Ok (base, brand, non_brand) ∧
    ["Total icons: 2"; "Brands: 1 | Non-brands: 1";
     "Wrote: ./all.txt, brands.txt, solids.txt"]
    = [] ++ summary (Args "a.css" "./all.txt" "brands.txt" "solids.txt" "" "" "")
              base brand non_brand ∧
    length brand + length non_brand = length base.
Proof.
  apply (proj1 (main_prints_summary (fun _ => "{}") (fun _ => "row") posix_path
                  (Args "a.css" "./all.txt" "brands.txt" "solids.txt" "" "" "")
                  (World {["a.css" := ".fa-code:before{}.fab-github:before{}"]} []
                     (sample_os ["."] [])))
           ".fa-code:before{}.fab-github:before{}"
           (World (<["solids.txt" := list_text ["fa-code"]]>
                     (<["brands.txt" := list_text ["fa-github"]]>
                        (<["all.txt" := list_text ["fa-code"; "fa-github"]]>
                           {["a.css" := ".fa-code:before{}.fab-github:before{}"]})))
                  ["Total icons: 2"; "Brands: 1 | Non-brands: 1";
                   "Wrote: ./all.txt, brands.txt, solids.txt"]
                  (sample_os ["."] []))).
  - reflexivity.
  - by vm_compute.
Defined.



(** X13.  In the CSV written from the normalizer's lists there is the
    header row and one row per base icon; an icon's row says yes exactly
    when the icon is in the brand list and no exactly when it is in the
    non-brand list.  The file holds these rows when it can be opened for
    writing; when it cannot, the call raises and changes nothing. *)
Theorem write_csv_flags (csv_row : list string → string) (raw : gset string) :
  ∃ base brand non_brand,
    normalize_icons raw = Ok (base, brand, non_brand) ∧
    (∀ path w,
       write_csv csv_row path base brand w
       = match write_error (sys w) path with
         | Some e => (Raise e, w)
         | None =>
             (Ok (),
              World (<[file_of (sys w) path
                       := String.concat "" (map csv_row (csv_rows base brand))]>
                       (files w)) (stdout w) (sys w))
         end) ∧
    length (csv_rows base brand) = S (length base) ∧
    (∀ icon, [icon; "yes"] ∈ csv_rows base brand ↔ icon ∈ brand) ∧
    (∀ icon, [icon; "no"] ∈ csv_rows base brand ↔ icon ∈ non_brand).
Proof.
  eexists _, _, _. split; [apply normalize_icons_eq|].
  set (B := base_of raw ∪ brands_of raw). set (R := brands_of raw).
  split; [|split; [|split]].
  - intros path w. unfold write_csv, write_text, csv_rows. by rewrite csv_flags.
  - unfold csv_rows. cbn [length]. by rewrite length_map.
  - intros icon. unfold csv_rows.
    rewrite elem_of_cons, list_elem_of_In, in_map_iff. split.
    + intros [[=]|(i & Heq & Hi)]. case_bool_decide; by simplify_eq.
    + intros Hin. right. exists icon. rewrite bool_decide_eq_true_2 by done.
      split; [done|]. apply list_elem_of_In.
      apply elem_of_sorted in Hin. apply elem_of_sorted, elem_of_union. by right.
  - intros icon. unfold csv_rows.
    rewrite elem_of_cons, list_elem_of_In, in_map_iff. split.
    + intros [[=]|(i & Heq & Hi)]. case_bool_decide; simplify_eq.
      apply list_elem_of_In in Hi. rewrite elem_of_sorted in *.
      by apply elem_of_difference.
    + intros [Hin Hnin]%elem_of_sorted%elem_of_difference. right. exists icon.
      rewrite bool_decide_eq_false_2 by by rewrite elem_of_sorted.
      split; [done|]. by apply list_elem_of_In, elem_of_sorted.
Qed.

(** X14.  The Markdown table always starts with its two header lines,
    then has one row per icon in order, every line ended by a newline;
    with no icon the file holds just the header.  The file holds this text
    when it can be opened for writing; when it cannot, the call raises and
    changes nothing. *)
Theorem write_markdown_table_text (path : string) (all_icons : list string) (w : world) :
  write_markdown_table path all_icons w
  = match write_error (sys w) path with
    | Some e => (Raise e, w)
    | None =>
        (Ok (),
         World (<[file_of (sys w) path
                  := String.concat ""
                       (map (fun line => line +:+ String "010" "")
                          ("| Icon Class | Preview |" :: "|-----------|---------|"
                             :: map markdown_row all_icons))]> (files w))
               (stdout w) (sys w))
    end.
Proof. unfold write_markdown_table, write_text. by rewrite join_lines. Qed.

(** ** Selectors the extractor finds and the normalizer drops *)

Lemma lower_not_hyphen (c : ascii) : is_lower c = true → Ascii.eqb "-" c = false.
Proof.
  intros Hc. destruct (Ascii.eqb_spec "-" c) as [<-|]; [|done]. by vm_compute in Hc.
Qed.

Lemma dropped_prefixes (i slug : string) :
  style_infix i = true → i ∉ [""; "b"; "s"; "r"; "l"] →
  Str.startswith "fa-" ("fa" +:+ i +:+ "-" +:+ slug) = false ∧
  Str.startswith "fab-" ("fa" +:+ i +:+ "-" +:+ slug) = false ∧
  Str.startswith_any solid_prefixes ("fa" +:+ i +:+ "-" +:+ slug) = false.
Proof.
  rewrite !not_elem_of_cons. intros Hi (H0 & Hb & Hs & Hr & Hl & _).
  unfold Str.startswith_any, solid_prefixes.
  destruct i as [|c [|d [|e i]]]; [done| | |done]; cbn [style_infix] in Hi;
    rewrite !app_cons, !app_empty_l; cbn [existsb Str.startswith];
    rewrite !Ascii.eqb_refl; cbn [andb orb].
  - rewrite (lower_not_hyphen c Hi).
    destruct (Ascii.eqb_spec "b" c) as [<-|]; [done|].
    destruct (Ascii.eqb_spec "s" c) as [<-|]; [done|].
    destruct (Ascii.eqb_spec "r" c) as [<-|]; [done|].
    by destruct (Ascii.eqb_spec "l" c) as [<-|].
  - apply andb_true_iff in Hi as [Hc Hd].
    rewrite (lower_not_hyphen c (is_style_letter_lower c Hc)), (lower_not_hyphen d Hd).
    by rewrite !andb_false_r.
Qed.

(** X15.  Style infixes the normalizer does not know are lost silently:
    a selector whose class is [fa], then one lowercase letter other than
    b, s, r, l (such as [fad-]) or two letters, then a hyphen and a slug,
    is captured by the extractor, and the normalizer drops the token, so the
    three lists are the same as without it. *)
Theorem unknown_style_extracted_then_dropped (i slug : string) :
  style_infix i = true → i ∉ [""; "b"; "s"; "r"; "l"] →
  slug ≠ "" → Str.all (Re.set_mem slug_set) slug = true →
  (∀ s1 marker s2, marker ∈ [":before"; "::before"] →
     "fa" +:+ i +:+ "-" +:+ slug
     ∈ extract_icon_classes
         (s1 +:+ "." +:+ ("fa" +:+ i +:+ "-" +:+ slug) +:+ marker +:+ s2)) ∧
  (∀ raw, normalize_icons ({["fa" +:+ i +:+ "-" +:+ slug]} ∪ raw) = normalize_icons raw).
Proof.
  intros Hi Hnin Hne Hslug. split.
  - intros s1 marker s2 Hmarker. unfold extract_icon_classes.
    apply elem_of_union_r, elem_of_list_to_set, findall_style_exact.
    split; [by exists i, slug | by exists s1, marker, s2].
  - intros raw. destruct (dropped_prefixes i slug Hi Hnin) as (H1 & H2 & H3).
    by apply normalize_icons_other.
Qed.

Lemma unknown_style_extracted_then_dropped_witness :
  (∀ s1 marker s2, marker ∈ [":before"; "::before"] →
     "fa" +:+ "d" +:+ "-" +:+ "camera"
     ∈ extract_icon_classes
         (s1 +:+ "." +:+ ("fa" +:+ "d" +:+ "-" +:+ "camera") +:+ marker +:+ s2)) ∧
  (∀ raw, normalize_icons ({["fa" +:+ "d" +:+ "-" +:+ "camera"]} ∪ raw)
          = normalize_icons raw).
Proof.
  apply (unknown_style_extracted_then_dropped "d" "camera"); [reflexivity| |done|reflexivity].
  apply (bool_decide_unpack _). by vm_compute.
Defined.

(** ** From the text to the lists *)

Lemma selector_in_app (s1 s2 tok : string) :
  selector_in s1 tok ∨ selector_in s2 tok → selector_in (s1 +:+ s2) tok.
Proof.
  intros [(t1 & marker & t2 & -> & Hm)|(t1 & marker & t2 & -> & Hm)].
  - exists t1, marker, (t2 +:+ s2). split; [|done]. by rewrite !app_assoc_s.
  - exists (s1 +:+ t1), marker, t2. split; [|done]. by rewrite !app_assoc_s.
Qed.

(** X16.  Adding text to a CSS bundle never removes an extracted class:
    what the extractor finds in either of two texts it also finds in their
    concatenation. *)
Theorem extract_icon_classes_app (s1 s2 : string) :
  extract_icon_classes s1 ∪ extract_icon_classes s2 ⊆ extract_icon_classes (s1 +:+ s2).
Proof.
  intros tok. rewrite elem_of_union.
  unfold extract_icon_classes.
  rewrite !elem_of_union, !elem_of_list_to_set, !findall_icon_exact, !findall_style_exact.
  intros [[[? ?]|[? ?]]|[[? ?]|[? ?]]];
    [left|right|left|right]; (split; [done|]); apply selector_in_app; auto.
Qed.

(** X17.  The base and brand lists grow with the raw set: every name
    listed for a raw set is listed for any larger one.  (The non-brand
    list does not: a new [fab-] token moves a name out of it.) *)
Theorem normalize_icons_monotone (raw raw' : gset string) :
  raw ⊆ raw' →
  ∃ base brand non_brand base' brand' non_brand',
    normalize_icons raw = Ok (base, brand, non_brand) ∧
    normalize_icons raw' = Ok (base', brand', non_brand') ∧
    (∀ x, x ∈ base → x ∈ base') ∧ (∀ x, x ∈ brand → x ∈ brand').
Proof.
  intros Hsub. eexists _, _, _, _, _, _.
  split; [apply normalize_icons_eq|]. split; [apply normalize_icons_eq|].
  assert (∀ x, x ∈ brands_of raw → x ∈ brands_of raw') as Hbrand.
  { intros x. rewrite !elem_of_brands_of. intros (cls & Hcls & Hx). exists cls. auto. }
  assert (∀ x, x ∈ base_of raw → x ∈ base_of raw') as Hbase.
  { intros x. rewrite !elem_of_base_of. intros (cls & Hcls & Hx). exists cls. auto. }
  split; intros x; rewrite !elem_of_sorted, ?elem_of_union; intuition.
Qed.

Lemma normalize_icons_monotone_witness :
  ∃ base brand non_brand base' brand' non_brand',
    normalize_icons {["fa-github"]} = Ok (base, brand, non_brand) ∧
    normalize_icons {["fa-github"; "fab-github"]} = Ok (base', brand', non_brand') ∧
    (∀ x, x ∈ base → x ∈ base') ∧ (∀ x, x ∈ brand → x ∈ brand').
Proof.
  apply normalize_icons_monotone. apply (bool_decide_unpack _). by vm_compute.
Defined.

Lemma extracted_selector (css tok : string) :
  tok ∈ extract_icon_classes css → selector_in css tok.
Proof.
  unfold extract_icon_classes. rewrite elem_of_union, !elem_of_list_to_set.
  intros [[_ ?]%findall_icon_exact|[_ ?]%findall_style_exact]; done.
Qed.

Lemma plain_selector_extracted (css tok : string) :
  token_shape no_infix tok → selector_in css tok → tok ∈ extract_icon_classes css.
Proof.
  intros Hshape Hsel. unfold extract_icon_classes.
  by apply elem_of_union_l, elem_of_list_to_set, findall_icon_exact.
Qed.

(** X18.  From the text to the icon list: every plain selector
    [.fa-<slug>:before] or [.fa-<slug>::before] of the CSS text puts
    [fa-<slug>] in the base list, and every name of the base list comes from
    a selector of the text: the name itself, or a [fab-], [fas-], [far-] or
    [fal-] class that yields it. *)
Theorem selectors_to_base_list (css : string) :
  ∃ base brand non_brand,
    normalize_icons (extract_icon_classes css) = Ok (base, brand, non_brand) ∧
    (∀ tok, token_shape no_infix tok → selector_in css tok → tok ∈ base) ∧
    (∀ x, x ∈ base →
          ∃ tok, selector_in css tok ∧
                 (tok = x
                  ∨ (∃ r, tok = "fab-" +:+ r ∧ x = "fa-" +:+ Str.replace "fab-" "fa-" r)
                  ∨ (∃ p r, p ∈ ["fas-"; "far-"; "fal-"] ∧ tok = p +:+ r
                            ∧ x = "fa-" +:+ r))).
Proof.
  eexists _, _, _. split; [apply normalize_icons_eq|]. split.
  - intros tok Hshape Hsel. rewrite elem_of_sorted, elem_of_union, elem_of_base_of.
    left. exists tok. split.
    + by apply plain_selector_extracted.
    + apply elem_of_token_base. left. split; [|done].
      destruct Hshape as (i & slug & -> & Hi & _). by destruct i.
  - intros x. rewrite elem_of_sorted, elem_of_union, elem_of_base_of, elem_of_brands_of.
    intros [(tok & Hsel%extracted_selector & Hx)
           |(tok & Hsel%extracted_selector & Hx)]; exists tok; (split; [done|]).
    + apply elem_of_token_base in Hx as [[_ ->]|(p & r & Hp & -> & ->)]; [by left|].
      right. right. by exists p, r.
    + apply elem_of_token_brand in Hx as [[r ->]%startswith_spec ->].
      right. left. exists r. by rewrite replace_fab_head.
Qed.

(** ** The two examples of the specification *)

Lemma extracted_shape (css tok : string) :
  tok ∈ extract_icon_classes css → token_shape style_infix tok.
Proof.
  unfold extract_icon_classes. rewrite elem_of_union, !elem_of_list_to_set.
  intros [[? _]%findall_icon_exact|[? _]%findall_style_exact]; [|done].
  by apply no_infix_style.
Qed.

Lemma style_selector_extracted (css tok : string) :
  token_shape style_infix tok → selector_in css tok → tok ∈ extract_icon_classes css.
Proof.
  intros Hshape Hsel. unfold extract_icon_classes.
  by apply elem_of_union_r, elem_of_list_to_set, findall_style_exact.
Qed.

(** A text whose selectors are known: the extractor returns their names. *)
Lemma extract_selectors (css : string) (toks : list string) :
  (∀ tok, tok ∈ toks → token_shape style_infix tok ∧ selector_in css tok) →
  (∀ tok, token_shape style_infix tok → selector_in css tok → tok ∈ toks) →
  extract_icon_classes css = list_to_set toks.
Proof.
  intros Hin Hall. apply set_eq. intros tok. rewrite elem_of_list_to_set. split.
  - intros H. apply Hall; [by eapply extracted_shape | by apply extracted_selector].
  - intros [? ?]%Hin. by apply style_selector_extracted.
Qed.

(** The other way round: what the extractor returns for a text bounds the
    selectors of that text. *)
Lemma selectors_extracted (css : string) (toks : list string) (tok : string) :
  extract_icon_classes css = list_to_set toks →
  token_shape style_infix tok → selector_in css tok → tok ∈ toks.
Proof.
  intros Hex Hshape Hsel.
  apply (elem_of_list_to_set (C:=gset string)). rewrite <-Hex.
  by apply style_selector_extracted.
Qed.

Lemma shape_yin_yang : token_shape style_infix "fa-yin-yang".
Proof. by exists "", "yin-yang". Qed.

Lemma shape_fab_github : token_shape style_infix "fab-github".
Proof. by exists "b", "github". Qed.

Lemma shape_fas_user : token_shape style_infix "fas-user".
Proof. by exists "s", "user". Qed.

Lemma shape_fab_user : token_shape style_infix "fab-user".
Proof. by exists "b", "user". Qed.

(** C6.  Take a CSS text that has the selectors [.fa-yin-yang::before] and
    [.fab-github:before] and no other selector: every class name of the
    shape the extractor looks for that stands in the text between a dot and
    [:before] or [::before] is one of these two.  The rule bodies and the
    rest of the text are arbitrary.  Extraction followed by normalization
    gives the base list fa-github, fa-yin-yang, the brand list fa-github
    and the non-brand list fa-yin-yang. *)
Theorem two_selector_example (css : string) :
  (∃ s1 s2, css = s1 +:+ ".fa-yin-yang::before" +:+ s2) →
  (∃ s1 s2, css = s1 +:+ ".fab-github:before" +:+ s2) →
  (∀ tok, token_shape style_infix tok → selector_in css tok →
          tok = "fa-yin-yang" ∨ tok = "fab-github") →
  normalize_icons (extract_icon_classes css)
  = Ok (["fa-github"; "fa-yin-yang"], ["fa-github"], ["fa-yin-yang"]).
Proof.
  intros (s1 & s2 & H1) (s3 & s4 & H2) Honly.
  rewrite (extract_selectors css ["fa-yin-yang"; "fab-github"]); [by vm_compute| |].
  - intros tok [->|[->|[]%elem_of_nil]%elem_of_cons]%elem_of_cons.
    + split; [apply shape_yin_yang|]. exists s1, "::before", s2.
      split; [exact H1|]. by right; left.
    + split; [apply shape_fab_github|]. exists s3, ":before", s4.
      split; [exact H2|]. by left.
  - intros tok Hshape Hsel. rewrite !elem_of_cons.
    destruct (Honly tok Hshape Hsel); auto.
Qed.

Lemma two_selector_example_witness :
  normalize_icons
    (extract_icon_classes ".fa-yin-yang::before{...}.fab-github:before{...}")
  = Ok (["fa-github"; "fa-yin-yang"], ["fa-github"], ["fa-yin-yang"]).
Proof.
  apply (two_selector_example ".fa-yin-yang::before{...}.fab-github:before{...}").
  - by exists "", "{...}.fab-github:before{...}".
  - by exists ".fa-yin-yang::before{...}", "{...}".
  - intros tok Hshape Hsel.
    assert (tok ∈ ["fa-yin-yang"; "fab-github"]) as Hin.
    { eapply selectors_extracted; [|done..].
      apply (bool_decide_unpack _). by vm_compute. }
    rewrite !elem_of_cons, elem_of_nil in Hin. tauto.
Defined.

(** C7 as stated does not hold.  Its last part says that for a CSS text
    with [.fas-user:before] the brand list does not hold fa-user.  A text
    that also has [.fab-user:before] puts fa-user in both lists. *)
Lemma fas_user_also_brand :
  ¬ (∀ css, Str.contains ".fas-user:before" css = true →
       ∃ base brand non_brand,
         normalize_icons (extract_icon_classes css) = Ok (base, brand, non_brand) ∧
         "fa-user" ∈ base ∧ "fa-user" ∉ brand).
Proof.
  intros H.
  destruct (H ".fas-user:before{...}.fab-user:before{...}" eq_refl)
    as (base & brand & non_brand & Hn & _ & Hnot).
  vm_compute in Hn. injection Hn as <- <- <-.
  apply Hnot. by left.
Qed.

(** What the normalizer returns for any CSS text that holds
    [.fas-user:before]. *)
Lemma normalize_fas_user (css : string) :
  Str.contains ".fas-user:before" css = true →
  ∃ base brand non_brand,
    normalize_icons (extract_icon_classes css) = Ok (base, brand, non_brand) ∧
    "fa-user" ∈ base ∧
    ("fa-user" ∈ brand ↔ selector_in css "fab-user").
Proof.
  intros Hcss%extract_fas_user.
  destruct (normalize_icons_solid "fas-" "user" _ ltac:(by left) Hcss)
    as (base & brand & non_brand & Hn & Hbase & Hbrand).
  exists base, brand, non_brand. split; [done|]. split; [done|]. split.
  - intros (u & Hu & [r ->]%startswith_spec & Hrep)%Hbrand.
    rewrite replace_fab_head in Hrep.
    apply (inj (String.append "fa-")) in Hrep.
    apply replace_fab_inv in Hrep as ->; [|done].
    by apply extracted_selector.
  - intros Hsel. rewrite normalize_icons_eq in Hn. injection Hn as <- <- <-.
    rewrite elem_of_sorted, elem_of_brands_of. exists "fab-user". split.
    + by apply style_selector_extracted; [apply shape_fab_user|].
    + by vm_compute.
Qed.

(** C7, amended.  A token that starts with [fas-], [far-] or [fal-] does
    not start with [fa-]; the loop body adds [fa-] followed by the text
    after the prefix to the base set and leaves the brand set as it is; the
    base list returned for a raw set with such a token holds that name, and
    the brand list holds it only when a [fab-] token of the raw set yields
    it.  For any CSS text that holds [.fas-user:before] the base list holds
    fa-user, and the brand list holds it exactly when the text also has a
    [.fab-user] selector; for a CSS text whose only selector is
    [.fas-user:before] the base list is fa-user and the brand list is
    empty. *)
Theorem solid_prefix_base_only :
  (∀ p rest, p ∈ ["fas-"; "far-"; "fal-"] →
     Str.startswith "fa-" (p +:+ rest) = false ∧
     (∀ a, normalize_step (p +:+ rest) a
           = Ok (Acc ({["fa-" +:+ rest]} ∪ base_icons a) (brand_icons a))) ∧
     (∀ raw, p +:+ rest ∈ raw →
        ∃ base brand non_brand,
          normalize_icons raw = Ok (base, brand, non_brand) ∧
          "fa-" +:+ rest ∈ base ∧
          ("fa-" +:+ rest ∈ brand →
           ∃ u, u ∈ raw ∧ Str.startswith "fab-" u = true
                ∧ Str.replace "fab-" "fa-" u = "fa-" +:+ rest))) ∧
  (∀ css, Str.contains ".fas-user:before" css = true →
     ∃ base brand non_brand,
       normalize_icons (extract_icon_classes css) = Ok (base, brand, non_brand) ∧
       "fa-user" ∈ base ∧
       ("fa-user" ∈ brand ↔ selector_in css "fab-user")) ∧
  (∀ css, Str.contains ".fas-user:before" css = true →
     (∀ tok, token_shape style_infix tok → selector_in css tok → tok = "fas-user") →
     normalize_icons (extract_icon_classes css) = Ok (["fa-user"], [], ["fa-user"])).
Proof.
  split; [|split].
  - intros p rest Hp. split; [by apply solid_not_fa|]. split.
    + intros a. by apply normalize_step_solid.
    + intros raw Hraw. by apply (normalize_icons_solid p).
  - apply normalize_fas_user.
  - intros css (s1 & s2 & Hcss)%contains_spec Honly.
    rewrite (extract_selectors css ["fas-user"]); [by vm_compute| |].
    + intros tok ->%list_elem_of_singleton. split; [apply shape_fas_user|].
      exists s1, ":before", s2. split; [exact Hcss|]. by left.
    + intros tok Hshape Hsel. apply list_elem_of_singleton. by apply Honly.
Qed.

Lemma solid_prefix_base_only_witness :
  normalize_icons (extract_icon_classes ".fas-user:before{...}")
  = Ok (["fa-user"], [], ["fa-user"]).
Proof.
  apply (proj2 (proj2 solid_prefix_base_only) ".fas-user:before{...}");
    [reflexivity|].
  intros tok Hshape Hsel.
  apply list_elem_of_singleton.
  eapply selectors_extracted; [|done..].
  apply (bool_decide_unpack _). by vm_compute.
Defined.
